(** * singlepp: feature intersection, marker reindexing and integrated classification

    A shallow embedding of

    - [include/singlepp/Intersection.hpp]       ([intersect_genes]),
    - [include/singlepp/process_features.hpp]   ([intersect_features], the two
      [subset_markers] overloads),
    - [include/singlepp/classify_integrated.hpp] (the per-cell loop of
      [classify_integrated]),

    together with the properties that the design document states about them.

    Conventions.
    - [std::unordered_map] and [std::unordered_set] are stdpp's [gmap] and
      [gset]; a [std::vector] is a [list], indexed with [!!] and updated in
      place with [<[i:=x]>].
    - [Index_] counters that only run below a container size are [nat].
      Values stored as [int] are [Z]; every conversion from [size_t] to [int]
      is written [to_int] and every conversion from [int] to [size_t] is
      written [to_size_t].
    - A call that can throw or that dereferences an iterator returns a
      [result]. Running out of memory is not modelled. *)

From Stdlib Require Import ZArith Lia Floats.
From stdpp Require Import base decidable option list sorting gmap strings.

#[local] Open Scope Z_scope.

(** ** Machine integers *)

(** [int] is 32 bits wide, [size_t] 64 bits wide. *)
Definition INT_MAX : Z := 2 ^ 31 - 1.

(** Conversion of a [size_t] value to [int]: reduction modulo [2^32] into the
    signed range. *)
Definition to_int (z : Z) : Z := (z + 2 ^ 31) mod 2 ^ 32 - 2 ^ 31.

(** [static_cast<size_t>] of an [int]: reduction modulo [2^64]. *)
Definition to_size_t (z : Z) : Z := z mod 2 ^ 64.

(** ** [Intersection.hpp] *)

Module Genes.

(** [Intersection<Index_>]: a vector of (test row, reference row) pairs. *)
Abbreviation Intersection := (list (nat * nat)).

Section intersect_genes.
Context {Id_ : Type} `{Countable Id_}.

(** Body of the first loop: [ref_found[current] = i] unless [current] is
    already a key. *)
Definition record_ref (ref_found : gmap Id_ nat) (i : nat) (current : Id_)
    : gmap Id_ nat :=
  match ref_found !! current with
  | None => <[current := i]> ref_found
  | Some _ => ref_found
  end.

(** First loop, from row [i] on. *)
Fixpoint index_refs (i : nat) (ref_id : list Id_) (ref_found : gmap Id_ nat)
    : gmap Id_ nat :=
  match ref_id with
  | [] => ref_found
  | current :: rest => index_refs (S i) rest (record_ref ref_found i current)
  end.

(** Second loop, from row [i] on: a test id that is still a key of
    [ref_found] is emitted and erased. *)
Fixpoint match_tests (i : nat) (test_id : list Id_) (ref_found : gmap Id_ nat)
    (output : Intersection) : Intersection :=
  match test_id with
  | [] => output
  | current :: rest =>
      match ref_found !! current with
      | Some j =>
          match_tests (S i) rest (delete current ref_found) (output ++ [(i, j)])
      | None => match_tests (S i) rest ref_found output
      end
  end.

Definition intersect_genes (test_id ref_id : list Id_) : Intersection :=
  match_tests 0 test_id (index_refs 0 ref_id ∅) [].

(** [first_at l i x]: row [i] of [l] is the first one that holds [x]. *)
Definition first_at (l : list Id_) (i : nat) (x : Id_) : Prop :=
  l !! i = Some x ∧ ∀ i', (i' < i)%nat → l !! i' ≠ Some x.

End intersect_genes.

End Genes.

(** ** [process_features.hpp]: [intersect_features] *)

(** [Intersection]: a vector of [std::pair<int, int>]. *)
Abbreviation Intersection := (list (Z * Z)).

(** [operator<=] induced by [operator<] of [std::pair<int, int>], the order
    [std::sort] uses. *)
Definition pair_le (p q : Z * Z) : Prop :=
  p.1 < q.1 ∨ (p.1 = q.1 ∧ p.2 ≤ q.2).

#[global] Instance pair_le_dec : RelDecision pair_le.
Proof. intros p q. unfold pair_le. apply _. Defined.

Section intersect_features.
Context {Id : Type} `{Countable Id}.

(** First loop: [intersection[mat_id[i]] = std::make_pair<int, int>(i, -1)]. *)
Fixpoint fill_mat (i : nat) (mat_id : list Id) (intersection : gmap Id (Z * Z))
    : gmap Id (Z * Z) :=
  match mat_id with
  | [] => intersection
  | id :: rest =>
      fill_mat (S i) rest (<[id := (to_int (Z.of_nat i), -1)]> intersection)
  end.

(** Body of the second loop: [(it->second).second = i] when [find] succeeds. *)
Definition mark_one (intersection : gmap Id (Z * Z)) (i : nat) (id : Id)
    : gmap Id (Z * Z) :=
  match intersection !! id with
  | Some p => <[id := (p.1, to_int (Z.of_nat i))]> intersection
  | None => intersection
  end.

Fixpoint mark_ref (i : nat) (ref_id : list Id) (intersection : gmap Id (Z * Z))
    : gmap Id (Z * Z) :=
  match ref_id with
  | [] => intersection
  | id :: rest => mark_ref (S i) rest (mark_one intersection i id)
  end.

(** Third loop: [x.second] for every entry [x] with [x.second.second >= 0],
    in the iteration order of the map. *)
Definition collect_pairings (intersection : gmap Id (Z * Z)) : Intersection :=
  snd <$> filter (λ x, 0 ≤ x.2.2) (map_to_list intersection).

Definition intersect_features (mat_id ref_id : list Id) : Intersection :=
  merge_sort pair_le
    (collect_pairings (mark_ref 0 ref_id (fill_mat 0 mat_id ∅))).

(** [last_at l i x]: row [i] of [l] is the last one that holds [x]. *)
Definition last_at (l : list Id) (i : nat) (x : Id) : Prop :=
  l !! i = Some x ∧ ∀ i', (i < i')%nat → l !! i' ≠ Some x.

End intersect_features.

(** ** [process_features.hpp]: [subset_markers] *)

(** [Markers]: [markers[i][j]] lists the genes that are up-ranked in label
    [i] relative to label [j]. *)
Abbreviation Markers := (list (list (list Z))).

(** Ways in which a call can fail to return. *)
Inductive result (A : Type) : Type :=
  | Ok (a : A)
  | LengthError   (* [std::length_error] thrown by [std::vector::reserve] *)
  | EndDeref.     (* [it->second] evaluated on a past-the-end iterator *)
Arguments Ok {A} a.
Arguments LengthError {A}.
Arguments EndDeref {A}.

#[global] Instance result_ret : MRet result := λ A a, Ok a.
#[global] Instance result_bind : MBind result := λ A B f r,
  match r with
  | Ok a => f a
  | LengthError => LengthError
  | EndDeref => EndDeref
  end.

(** [std::vector<int>::max_size()] (libstdc++, LP64). Any value from
    [INT_MAX] to [2^64 - 2^31 - 1] gives the same [reserve] on an [int]. *)
Definition vector_max_size : Z := 2 ^ 61 - 1.

(** [replacement.reserve(top)]: the argument is converted to [size_t]. *)
Definition reserve (top : Z) : result unit :=
  if decide (to_size_t top ≤ vector_max_size) then Ok tt else LengthError.

Section visit.
Context {St : Type}.
Variable body : list Z → St → result (list Z * St).

(** The loop nest shared by every pass over the markers:
    [for i, for j, if (i == j) continue; body(markers[i][j])].
    [visit_row i j row] is the inner loop from column [j] on. *)
Fixpoint visit_row (i j : nat) (row : list (list Z)) (s : St)
    : result (list (list Z) * St) :=
  match row with
  | [] => Ok ([], s)
  | current :: rest =>
      if decide (i = j) then
        '(rest', s') ← visit_row i (S j) rest s;
        Ok (current :: rest', s')
      else
        '(current', s1) ← body current s;
        '(rest', s2) ← visit_row i (S j) rest s1;
        Ok (current' :: rest', s2)
  end.

Fixpoint visit_markers (i : nat) (markers : Markers) (s : St)
    : result (Markers * St) :=
  match markers with
  | [] => Ok ([], s)
  | row :: rows =>
      '(row', s1) ← visit_row i 0 row s;
      '(rows', s2) ← visit_markers (S i) rows s1;
      Ok (row' :: rows', s2)
  end.
End visit.

(** [markers[i][j]], when it exists. *)
Definition entry (markers : Markers) (i j : nat) : option (list Z) :=
  row ← markers !! i; row !! j.

(** What the loop nest computes when its body is a pure function [g] of the
    entry: [map_markers] is the new value of the markers, [markers_entries]
    the entries the body was run on, in order. Both start at row [i];
    [map_row] and [row_entries] start at column [j] of row [i]. *)
Fixpoint map_row (g : list Z → list Z) (i j : nat) (row : list (list Z))
    : list (list Z) :=
  match row with
  | [] => []
  | current :: rest =>
      (if decide (i = j) then current else g current) :: map_row g i (S j) rest
  end.

Fixpoint map_markers (g : list Z → list Z) (i : nat) (markers : Markers)
    : Markers :=
  match markers with
  | [] => []
  | row :: rows => map_row g i 0 row :: map_markers g (S i) rows
  end.

Fixpoint row_entries (i j : nat) (row : list (list Z)) : list (list Z) :=
  match row with
  | [] => []
  | current :: rest =>
      (if decide (i = j) then [] else [current]) ++ row_entries i (S j) rest
  end.

Fixpoint markers_entries (i : nat) (markers : Markers) : list (list Z) :=
  match markers with
  | [] => []
  | row :: rows => row_entries i 0 row ++ markers_entries (S i) rows
  end.

(** The union of [f current] over the off-diagonal entries: the set that a
    first pass gathers when it inserts [f current] at every entry. *)
Definition gathered (f : list Z → list Z) (markers : Markers) : gset Z :=
  foldl (λ s current, list_to_set (f current) ∪ s) ∅ (markers_entries 0 markers).

(** *** Overload with an intersection *)

(** Lines 62-67: scan [current] while fewer than [top] genes have been kept. *)
Fixpoint keep_available (available : gset Z) (top : Z) (current : list Z)
    (all_markers : gset Z) (replacement : list Z) : gset Z * list Z :=
  match current with
  | [] => (all_markers, replacement)
  | g :: rest =>
      if decide (Z.of_nat (length replacement) < to_size_t top) then
        if decide (g ∈ available) then
          keep_available available top rest ({[g]} ∪ all_markers) (replacement ++ [g])
        else keep_available available top rest all_markers replacement
      else (all_markers, replacement)
  end.

(** Filtered top-k: the first [top] genes of [current] that are available. *)
Definition filtered_top (available : gset Z) (top : Z) (current : list Z)
    : list Z :=
  take (Z.to_nat (to_size_t top)) (filter (λ g, g ∈ available) current).

(** Lines 58-69: body of the first pass; the state is [all_markers]. *)
Definition retain_top (available : gset Z) (top : Z) (current : list Z)
    (all_markers : gset Z) : result (list Z * gset Z) :=
  _ ← reserve top;
  let '(all_markers', replacement) :=
    keep_available available top current all_markers [] in
  Ok (replacement, all_markers').

(** Lines 79-83: one iteration of the in-place compaction.
    [intersection[i]] is read again after the write to
    [intersection[counter]], as in the source. *)
Definition compact_step (all_markers : gset Z)
    (st : Intersection * gmap Z Z * nat) (i : nat)
    : Intersection * gmap Z Z * nat :=
  let '(intersection, mapping, counter) := st in
  match intersection !! i with
  | Some p =>
      if decide (p.2 ∈ all_markers) then
        let intersection1 := <[counter := p]> intersection in
        match intersection1 !! i with
        | Some q =>
            (intersection1, <[q.2 := to_int (Z.of_nat counter)]> mapping,
             S counter)
        | None => st
        end
      else st
  | None => st
  end.

(** Lines 74-86: compaction, then [intersection.resize(counter)]. *)
Definition compact_intersection (all_markers : gset Z)
    (intersection : Intersection) : Intersection * gmap Z Z :=
  let '(intersection', mapping, counter) :=
    foldl (compact_step all_markers) (intersection, ∅, 0%nat)
      (seq 0 (length intersection)) in
  (take counter intersection', mapping).

(** Lines 96-99: [current[k] = mapping.find(current[k])->second] for each
    [k]. *)
Fixpoint reindex (mapping : gmap Z Z) (current : list Z) : result (list Z) :=
  match current with
  | [] => Ok []
  | g :: rest =>
      match mapping !! g with
      | Some v => rest' ← reindex mapping rest; Ok (v :: rest')
      | None => EndDeref
      end
  end.

(** The same rewriting as a total function, for use where every gene is a
    key of [mapping]. *)
Definition renumber (mapping : gmap Z Z) (current : list Z) : list Z :=
  (λ g, default 0 (mapping !! g)) <$> current.

Definition reindex_body (mapping : gmap Z Z) (current : list Z) (s : unit)
    : result (list Z * unit) :=
  current' ← reindex mapping current; Ok (current', s).

(** Lines 43-47. *)
Definition available_of (intersection : Intersection) : gset Z :=
  list_to_set (snd <$> intersection).

(** The first pass on its own (lines 49-71). *)
Definition filter_markers (intersection : Intersection) (markers : Markers)
    (top : Z) : result (Markers * gset Z) :=
  visit_markers (retain_top (available_of intersection) top) 0 markers ∅.

Definition subset_markers (intersection : Intersection) (markers : Markers)
    (top : Z) : result (Intersection * Markers) :=
  '(markers1, all_markers) ← filter_markers intersection markers top;
  let '(intersection', mapping) :=
    compact_intersection all_markers intersection in
  '(markers2, _) ← visit_markers (reindex_body mapping) 0 markers1 tt;
  Ok (intersection', markers2).

(** The property "marker indices and reference rows of the surviving
    intersection lie in [0..k-1], [k] the number of surviving pairs". *)
Definition in_compact_space (intersection' : Intersection) (markers' : Markers)
    : Prop :=
  (∀ i j current m, i ≠ j → entry markers' i j = Some current → m ∈ current →
                    0 ≤ m < Z.of_nat (length intersection'))
  ∧ (∀ p, p ∈ intersection' → 0 ≤ p.2 < Z.of_nat (length intersection')).

(** *** Overload for identical feature spaces *)

(** Line 115: [current.resize(std::min(current.size(), size_t(top)))]. *)
Definition truncate (top : Z) (current : list Z) : list Z :=
  take (Z.to_nat (Z.min (Z.of_nat (length current)) (to_size_t top))) current.

(** Lines 114-116: body of the first pass; the state is [available]. *)
Definition truncate_body (top : Z) (current : list Z) (available : gset Z)
    : result (list Z * gset Z) :=
  let current' := truncate top current in
  Ok (current', list_to_set current' ∪ available).

(** Lines 125-127: [mapping[subset[i]] = i], from position [i] on. *)
Fixpoint index_subset (i : nat) (subset : list Z) (mapping : gmap Z Z)
    : gmap Z Z :=
  match subset with
  | [] => mapping
  | g :: rest => index_subset (S i) rest (<[g := to_int (Z.of_nat i)]> mapping)
  end.

Definition subset_markers_all (markers : Markers) (top : Z)
    : result (list Z * Markers) :=
  '(markers1, available) ← visit_markers (truncate_body top) 0 markers ∅;
  let subset := merge_sort Z.le (elements available) in
  let mapping := index_subset 0 subset ∅ in
  '(markers2, _) ← visit_markers (reindex_body mapping) 0 markers1 tt;
  Ok (subset, markers2).

(** *** [unzip] *)

(** One iteration of the loop of [unzip]: [left[i] = intersection[i].first;
    right[i] = intersection[i].second]. *)
Definition unzip_step (intersection : Intersection) (acc : list Z * list Z)
    (i : nat) : list Z * list Z :=
  match intersection !! i with
  | Some p => (<[i := p.1]> acc.1, <[i := p.2]> acc.2)
  | None => acc
  end.

(** [unzip]: both vectors are created with one value-initialised slot per
    pair and then filled slot by slot. *)
Definition unzip (intersection : Intersection) : list Z * list Z :=
  foldl (unzip_step intersection)
    (replicate (length intersection) 0, replicate (length intersection) 0)
    (seq 0 (length intersection)).

(** ** [classify_integrated.hpp] *)

(** The operations the loop uses on its [Float_] template parameter. *)
Class FloatOps (Float_ : Type) : Type := {
  f_gt : Float_ → Float_ → bool;        (* [operator>] *)
  f_sub : Float_ → Float_ → Float_;     (* [operator-] *)
  f_of_int : Z → Float_;                (* conversion of an integer literal *)
  f_nan : Float_                        (* [std::numeric_limits<Float_>::quiet_NaN()] *)
}.

(** [Float_ = double]. *)
#[global] Instance double_ops : FloatOps float := {|
  f_gt := λ x y, PrimFloat.ltb y x;
  f_sub := PrimFloat.sub;
  f_of_int := λ z,
    if (z <? 0)%Z then PrimFloat.opp (PrimFloat.of_uint63 (Uint63.of_Z (- z)))
    else PrimFloat.of_uint63 (Uint63.of_Z z);
  f_nan := PrimFloat.nan
|}.

(** [ClassifyIntegratedBuffers]; [None] is a null pointer. The caller
    allocates every array with one slot per test cell and [scores] with one
    pointer per reference. A write past the end of an array is undefined in
    the source and does nothing here; the properties below are stated for
    slots that exist. [RefLabel_] and [Index_] values are [nat]. *)
Record ClassifyIntegratedBuffers (Float_ : Type) : Type := {
  best : option (list nat);
  scores : list (option (list Float_));
  delta : option (list Float_)
}.
Arguments best {Float_} _.
Arguments scores {Float_} _.
Arguments delta {Float_} _.

(** The three locals declared at lines 166-167. *)
Record Running (Float_ : Type) : Type := {
  best_score : Float_;
  next_best : Float_;
  best_ref : nat
}.
Arguments best_score {Float_} _.
Arguments next_best {Float_} _.
Arguments best_ref {Float_} _.

Section classify_integrated.
Context {Float_ : Type} `{FloatOps Float_}.

(** [trained.num_references()]. *)
Variable nref : nat.

(** The value of [score] at line 218 for reference [r] and cell [i]. It is
    computed from the test matrix, the assigned labels, the trained model
    and the quantile by [RankRemapper], [scaled_ranks],
    [distance_to_correlation] and [correlations_to_scores], which live in
    other headers. *)
Variable compute_score : nat → nat → Float_.

(** Lines 166-167. *)
Definition init_running : Running Float_ :=
  {| best_score := f_of_int (-1000);
     next_best := f_of_int (-1000);
     best_ref := 0%nat |}.

(** Lines 222-228. *)
Definition update (st : Running Float_) (r : nat) (score : Float_)
    : Running Float_ :=
  if f_gt score (best_score st) then
    {| best_score := score; next_best := best_score st; best_ref := r |}
  else if f_gt score (next_best st) then
    {| best_score := best_score st; next_best := score;
       best_ref := best_ref st |}
  else st.

(** Lines 219-221: [buffers.scores[r][i] = score] unless the pointer is
    null. *)
Definition store_score (scores : list (option (list Float_))) (r i : nat)
    (score : Float_) : list (option (list Float_)) :=
  match scores !! r with
  | Some (Some column) => <[r := Some (<[i := score]> column)]> scores
  | _ => scores
  end.

(** One iteration of the loop over the references (lines 170-229). *)
Definition scan_ref (i : nat)
    (acc : Running Float_ * list (option (list Float_))) (r : nat)
    : Running Float_ * list (option (list Float_)) :=
  let score := compute_score r i in
  (update acc.1 r score, store_score acc.2 r i score).

(** Lines 234-240. *)
Definition delta_of (st : Running Float_) : Float_ :=
  if decide (1 < nref)%nat then f_sub (best_score st) (next_best st)
  else f_nan.

(** One iteration of the loop over the cells (lines 145-241). *)
Definition classify_cell (buffers : ClassifyIntegratedBuffers Float_)
    (i : nat) : ClassifyIntegratedBuffers Float_ :=
  let '(st, scores') :=
    foldl (scan_ref i) (init_running, scores buffers) (seq 0 nref) in
  {| best := (λ b, <[i := best_ref st]> b) <$> best buffers;
     scores := scores';
     delta := (λ d, <[i := delta_of st]> d) <$> delta buffers |}.

(** The function handed to [tatami::parallelize]: cells
    [start, start + len). *)
Definition classify_range (start len : nat)
    (buffers : ClassifyIntegratedBuffers Float_)
    : ClassifyIntegratedBuffers Float_ :=
  foldl classify_cell buffers (seq start len).

(** The run with a single worker, which receives the range [0, ncol). *)
Definition classify_integrated (ncol : nat)
    (buffers : ClassifyIntegratedBuffers Float_)
    : ClassifyIntegratedBuffers Float_ :=
  classify_range 0 ncol buffers.

(** The locals after the loop over the references, for cell [i]. *)
Definition running_of (i : nat) : Running Float_ :=
  foldl (λ st r, update st r (compute_score r i)) init_running (seq 0 nref).

End classify_integrated.

(** *** The overload that allocates its results *)

Module Results.
(** [ClassifyIntegratedResults]. *)
Record ClassifyIntegratedResults (Float_ : Type) : Type := {
  best : list nat;
  scores : list (list Float_);
  delta : list Float_
}.
Arguments best {Float_} _.
Arguments scores {Float_} _.
Arguments delta {Float_} _.
End Results.

Section classify_integrated_results.
Context {Float_ : Type} `{FloatOps Float_}.
Variable nref : nat.
Variable compute_score : nat → nat → Float_.

(** The constructor (lines 256-261): [best] and [delta] get [ncells]
    value-initialised slots, and [scores] gets [nrefs] vectors of [ncells]
    value-initialised slots, appended one by one. *)
Definition new_results (ncells nrefs : nat)
    : Results.ClassifyIntegratedResults Float_ :=
  {| Results.best := replicate ncells 0%nat;
     Results.scores :=
       foldl (λ scores _, scores ++ [replicate ncells (f_of_int 0)]) []
         (seq 0 nrefs);
     Results.delta := replicate ncells (f_of_int 0) |}.

(** Lines 308-314: the buffers point into the vectors of the results. *)
Definition buffers_of (results : Results.ClassifyIntegratedResults Float_)
    : ClassifyIntegratedBuffers Float_ :=
  {| best := Some (Results.best results);
     scores := foldl (λ pointers s, pointers ++ [Some s]) []
                 (Results.scores results);
     delta := Some (Results.delta results) |}.

(** The vectors of the results after a run that wrote through [buffers]:
    a vector holds what its pointer now points to, and keeps its contents
    where the pointer is null. *)
Definition written_through (results : Results.ClassifyIntegratedResults Float_)
    (buffers : ClassifyIntegratedBuffers Float_)
    : Results.ClassifyIntegratedResults Float_ :=
  {| Results.best := default (Results.best results) (best buffers);
     Results.scores :=
       zip_with (λ s pointer, default s pointer) (Results.scores results)
         (scores buffers);
     Results.delta := default (Results.delta results) (delta buffers) |}.

(** Lines 300-317, for a test matrix of [ncol] columns and a single
    worker. *)
Definition classify_integrated_results (ncol : nat)
    : Results.ClassifyIntegratedResults Float_ :=
  let results := new_results ncol nref in
  written_through results
    (classify_integrated nref compute_score ncol (buffers_of results)).

End classify_integrated_results.

(** *** A run on concrete data *)

(** Scores of three references for two cells, as [double]s: the second and
    the third reference tie on the first cell. *)
Definition example_scores (r i : nat) : float :=
  nth i (nth r [[0.5; 0.25]; [0.75; 0.25]; [0.75; 0.125]]%float []) 0%float.

(** Caller buffers for two cells; the scores of the first reference are not
    requested. *)
Definition example_buffers : ClassifyIntegratedBuffers float :=
  {| best := Some [7; 7]%nat;
     scores := [None; Some [0; 0]%float; Some [0; 0]%float];
     delta := Some [0; 0]%float |}.

(** * Properties *)

(** ** Worked examples *)

Example intersect_genes_example :
  Genes.intersect_genes ["B"; "A"; "C"; "A"]%string ["A"; "B"; "B"; "D"]%string
  = [(0, 1); (1, 0)]%nat.
Proof. vm_compute. reflexivity. Qed.

Example subset_markers_example :
  subset_markers [(0, 2); (1, 5); (2, 7)] [[[]; [5; 7; 9]]; [[2; 3]; []]] 2
  = Ok ([(0, 2); (1, 5); (2, 7)], [[[]; [1; 2]]; [[0]; []]]).
Proof. vm_compute. reflexivity. Qed.

(** A pair whose reference row is no marker is dropped by the compaction. *)
Example subset_markers_compacts :
  subset_markers [(3, 9); (0, 5); (4, 1); (1, 7)] [[[]; [7; 5]]; [[5; 8]; []]] 1
  = Ok ([(0, 5); (1, 7)], [[[]; [1]]; [[0]; []]]).
Proof. vm_compute. reflexivity. Qed.

(** A negative [top] makes [reserve] throw at the first off-diagonal entry. *)
Example subset_markers_negative_top :
  subset_markers [(0, 5)] [[[]; [5]]; [[5]; []]] (-1) = LengthError.
Proof. vm_compute. reflexivity. Qed.

Example subset_markers_all_example :
  subset_markers_all [[[1]; [5; 7; 9]]; [[7; 3]; [77]]] 2
  = Ok ([3; 5; 7], [[[1]; [1; 2]]; [[2; 0]; [77]]]).
Proof. vm_compute. reflexivity. Qed.

Example classify_integrated_example :
  classify_integrated 3 example_scores 2 example_buffers
  = {| best := Some [1; 0]%nat;
       scores := [None; Some [0.75; 0.25]%float; Some [0.75; 0.125]%float];
       delta := Some [0; 0]%float |}.
Proof. vm_compute. reflexivity. Qed.

(** ** [intersect_genes] *)

Section intersect_genes_facts.
Context {Id_ : Type} `{Countable Id_}.
Implicit Types (test_id ref_id l : list Id_) (ref_found : gmap Id_ nat).

Import Genes.

Lemma first_at_cons_eq l x p : first_at (x :: l) p x ↔ p = 0%nat.
Proof.
  unfold first_at. split.
  - intros [_ Hfirst]. destruct p as [|p]; [done|].
    exfalso. apply (Hfirst 0%nat); [lia|done].
  - intros ->. split; [done|]. intros i' Hi'. lia.
Qed.

Lemma first_at_cons_ne l x y p :
  x ≠ y → first_at (x :: l) p y ↔ ∃ p', p = S p' ∧ first_at l p' y.
Proof.
  intros Hne. unfold first_at. split.
  - intros [Hp Hfirst]. destruct p as [|p]; [cbn in Hp; congruence|].
    exists p. split; [done|]. split; [done|].
    intros i' Hi'. apply (Hfirst (S i')). lia.
  - intros [p' [-> [Hp Hfirst]]]. split; [done|].
    intros [|i'] Hi'; cbn; [congruence|]. apply Hfirst. lia.
Qed.

Lemma first_at_unique l p q x : first_at l p x → first_at l q x → p = q.
Proof.
  intros [Hp Hfp] [Hq Hfq].
  destruct (Nat.lt_trichotomy p q) as [Hlt|[Heq|Hlt]]; [|done|].
  - by destruct (Hfq p Hlt).
  - by destruct (Hfp q Hlt).
Qed.

(** Every id that occurs in a list has a first row. *)
Lemma first_at_exists l x : x ∈ l → ∃ p, first_at l p x.
Proof.
  induction l as [|y l IH]; intros Hin; [by inversion Hin|].
  destruct (decide (y = x)) as [->|Hne].
  - exists 0%nat. by apply first_at_cons_eq.
  - apply elem_of_cons in Hin as [->|Hin]; [done|].
    destruct (IH Hin) as [p Hp]. exists (S p).
    apply first_at_cons_ne; eauto.
Qed.

(** The first loop maps each id of [ref_id] that was not a key yet to its
    first row, and keeps the keys it started with. *)
Lemma index_refs_lookup i0 ref_id ref_found x j :
  index_refs i0 ref_id ref_found !! x = Some j
  ↔ ref_found !! x = Some j
    ∨ (ref_found !! x = None ∧ ∃ p, j = (i0 + p)%nat ∧ first_at ref_id p x).
Proof.
  revert i0 ref_found. induction ref_id as [|c rest IH]; intros i0 ref_found.
  - cbn. split; [by left|]. intros [Hm|[_ [p [_ [Hp _]]]]]; [done|].
    by rewrite lookup_nil in Hp.
  - cbn [index_refs]. rewrite IH. unfold record_ref.
    destruct (decide (c = x)) as [->|Hne].
    + destruct (ref_found !! x) as [j0|] eqn:Hx.
      * rewrite Hx. split; (intros [?|[? _]]; [by left|done]).
      * rewrite lookup_insert_eq. split.
        -- intros [Hj|[? _]]; [|done]. right. split; [done|].
           exists 0%nat. split; [injection Hj as <-; lia|]. by apply first_at_cons_eq.
        -- intros [?|[_ [p [-> Hp]]]]; [done|].
           apply first_at_cons_eq in Hp as ->. left. f_equal. lia.
    + assert (Hlook : (match ref_found !! c with
                       | Some _ => ref_found
                       | None => <[c:=i0]> ref_found
                       end) !! x = ref_found !! x).
      { destruct (ref_found !! c); [done|]. by rewrite lookup_insert_ne. }
      rewrite Hlook. split.
      * intros [?|[Hnone [p [-> Hp]]]]; [by left|]. right. split; [done|].
        exists (S p). split; [lia|]. apply first_at_cons_ne; eauto.
      * intros [?|[Hnone [p [-> Hp]]]]; [by left|]. right. split; [done|].
        apply first_at_cons_ne in Hp as [p' [-> Hp']]; [|done].
        exists p'. split; [lia|done].
Qed.

(** The second loop emits [(i0 + p, j)] exactly when row [p] is the first
    one of [test_id] holding an id that [ref_found] maps to [j]. *)
Lemma match_tests_elem i0 test_id ref_found output a b :
  (a, b) ∈ match_tests i0 test_id ref_found output
  ↔ (a, b) ∈ output
    ∨ ∃ p x, a = (i0 + p)%nat ∧ first_at test_id p x ∧ ref_found !! x = Some b.
Proof.
  revert i0 ref_found output.
  induction test_id as [|c rest IH]; intros i0 ref_found output.
  - cbn. split; [by left|]. intros [?|[p [x [_ [[Hp _] _]]]]]; [done|].
    by rewrite lookup_nil in Hp.
  - cbn [match_tests]. destruct (ref_found !! c) as [j|] eqn:Hc.
    + rewrite IH, elem_of_app, list_elem_of_singleton. split.
      * intros [[?|Heq]|[p [x [-> [Hp Hx]]]]]; [by left| |].
        -- inversion Heq; subst. right. exists 0%nat, c.
           split; [lia|]. split; [by apply first_at_cons_eq|done].
        -- right. apply lookup_delete_Some in Hx as [Hne Hx].
           exists (S p), x. split; [lia|]. split; [|done].
           apply first_at_cons_ne; eauto.
      * intros [?|[p [x [-> [Hp Hx]]]]]; [by left; left|].
        destruct (decide (c = x)) as [->|Hne].
        -- apply first_at_cons_eq in Hp as ->. left. right.
           rewrite Hc in Hx. inversion Hx. f_equal. lia.
        -- apply first_at_cons_ne in Hp as [p' [-> Hp']]; [|done].
           right. exists p', x. split; [lia|]. split; [done|].
           by rewrite lookup_delete_ne.
    + rewrite IH. split.
      * intros [?|[p [x [-> [Hp Hx]]]]]; [by left|]. right.
        exists (S p), x. split; [lia|]. split; [|done].
        apply first_at_cons_ne; [congruence|eauto].
      * intros [?|[p [x [-> [Hp Hx]]]]]; [by left|].
        destruct (decide (c = x)) as [->|Hne]; [congruence|].
        apply first_at_cons_ne in Hp as [p' [-> Hp']]; [|done].
        right. exists p', x. split; [lia|done].
Qed.

(** The test rows are emitted in increasing order. *)
Lemma match_tests_sorted i0 test_id ref_found output :
  StronglySorted lt (fst <$> output) →
  Forall (λ a, (a < i0)%nat) (fst <$> output) →
  StronglySorted lt (fst <$> match_tests i0 test_id ref_found output).
Proof.
  revert i0 ref_found output.
  induction test_id as [|c rest IH]; intros i0 ref_found output Hs Hb; [done|].
  cbn [match_tests]. destruct (ref_found !! c) as [j|].
  - apply IH.
    + rewrite fmap_app. apply StronglySorted_app.
      split; [|split; [done|repeat constructor]].
      intros a a' Ha Ha'. cbn in Ha'. apply list_elem_of_singleton in Ha' as ->.
      by eapply (proj1 (Forall_forall _ _) Hb).
    + rewrite fmap_app. apply Forall_app. split.
      * eapply Forall_impl; [exact Hb|]. cbn. lia.
      * repeat constructor.
  - apply IH; [done|]. eapply Forall_impl; [exact Hb|]. cbn. lia.
Qed.

(** A pair is emitted exactly when it joins the first row of an id in the
    test dataset with the first row of the same id in the reference. *)
Lemma intersect_genes_elem test_id ref_id a b :
  (a, b) ∈ intersect_genes test_id ref_id
  ↔ ∃ x, first_at test_id a x ∧ first_at ref_id b x.
Proof.
  unfold intersect_genes. rewrite match_tests_elem. split.
  - intros [Hnil|[p [x [-> [Hp Hx]]]]]; [by inversion Hnil|].
    apply index_refs_lookup in Hx as [Hx|[_ [q [-> Hq]]]]; [done|]. eauto.
  - intros [x [Ha Hb]]. right. exists a, x. split; [done|]. split; [done|].
    apply index_refs_lookup. right. split; [done|]. eauto.
Qed.

Lemma intersect_genes_sorted test_id ref_id :
  StronglySorted lt (fst <$> intersect_genes test_id ref_id).
Proof. apply match_tests_sorted; constructor. Qed.

Lemma StronglySorted_lt_NoDup (l : list nat) : StronglySorted lt l → NoDup l.
Proof.
  induction 1 as [|a l Hs IH Hall]; constructor; [|done].
  intros Hin. apply (proj1 (Forall_forall _ _) Hall) in Hin. lia.
Qed.

Lemma intersect_genes_NoDup_fst test_id ref_id :
  NoDup (fst <$> intersect_genes test_id ref_id).
Proof. apply StronglySorted_lt_NoDup, intersect_genes_sorted. Qed.

Lemma intersect_genes_NoDup_snd test_id ref_id :
  NoDup (snd <$> intersect_genes test_id ref_id).
Proof.
  apply NoDup_fmap_2_strong.
  - intros [a b] [a' b'] Hin Hin' Heq. cbn in Heq. subst b'.
    apply intersect_genes_elem in Hin as [x [Ha Hb]].
    apply intersect_genes_elem in Hin' as [x' [Ha' Hb']].
    assert (x = x') as <-.
    { destruct Hb as [Hb _], Hb' as [Hb' _]. congruence. }
    f_equal. eapply first_at_unique; eauto.
  - eapply NoDup_fmap_1, intersect_genes_NoDup_fst.
Qed.

Lemma intersect_genes_disjoint test_id ref_id :
  (∀ x, x ∈ test_id → x ∉ ref_id) → intersect_genes test_id ref_id = [].
Proof.
  intros Hdisj. destruct (intersect_genes test_id ref_id) as [|[a b] l] eqn:Heq;
    [done|].
  assert (Hin : (a, b) ∈ intersect_genes test_id ref_id) by (rewrite Heq; left).
  apply intersect_genes_elem in Hin as [x [[Ha _] [Hb _]]].
  destruct (Hdisj x); eapply list_elem_of_lookup_2; eauto.
Qed.

(** A later row that repeats the id of a matched row is never matched, on
    either side. *)
Lemma intersect_genes_duplicates_unmatched test_id ref_id a b :
  (a, b) ∈ intersect_genes test_id ref_id →
  (∀ a', (a < a')%nat → test_id !! a' = test_id !! a →
         a' ∉ fst <$> intersect_genes test_id ref_id)
  ∧ (∀ b', (b < b')%nat → ref_id !! b' = ref_id !! b →
           b' ∉ snd <$> intersect_genes test_id ref_id).
Proof.
  intros [x [[Ha _] [Hb _]]]%intersect_genes_elem. split.
  - intros a' Hlt Hsame [[a0 b0] [-> Hin]]%list_elem_of_fmap.
    apply intersect_genes_elem in Hin as [x' [[Ha' Hfirst] _]]. cbn in *.
    apply (Hfirst a Hlt). congruence.
  - intros b' Hlt Hsame [[a0 b0] [-> Hin]]%list_elem_of_fmap.
    apply intersect_genes_elem in Hin as [x' [_ [Hb' Hfirst]]]. cbn in *.
    apply (Hfirst b Hlt). congruence.
Qed.

End intersect_genes_facts.

(** ** [intersect_features] *)

Lemma to_int_small z : 0 ≤ z ≤ INT_MAX → to_int z = z.
Proof. unfold to_int, INT_MAX. intros Hz. rewrite Z.mod_small; lia. Qed.

#[global] Instance pair_le_trans : Transitive pair_le.
Proof. intros p q r. unfold pair_le. lia. Qed.

#[global] Instance pair_le_total : Total pair_le.
Proof. intros p q. unfold pair_le. lia. Qed.

#[global] Instance pair_le_antisymm : AntiSymm (=) pair_le.
Proof.
  intros [a b] [a' b']. unfold pair_le. cbn. intros Hpq Hqp.
  f_equal; lia.
Qed.

Section intersect_features_facts.
Context {Id : Type} `{Countable Id}.
Implicit Types (mat_id ref_id l : list Id) (m : gmap Id (Z * Z)).

Lemma last_at_cons l c p x :
  last_at (c :: l) p x
  ↔ (p = 0%nat ∧ c = x ∧ x ∉ l) ∨ (∃ p', p = S p' ∧ last_at l p' x).
Proof.
  unfold last_at. split.
  - intros [Hp Hlast]. destruct p as [|p].
    + left. cbn in Hp. inversion Hp; subst. split; [done|]. split; [done|].
      intros [i Hi]%list_elem_of_lookup. apply (Hlast (S i)); [lia|done].
    + right. exists p. split; [done|]. split; [done|].
      intros i' Hi'. apply (Hlast (S i')). lia.
  - intros [[-> [-> Hnot]]|[p' [-> [Hp Hlast]]]].
    + split; [done|]. intros [|i'] Hi'; [lia|]. cbn. intros Hx.
      apply Hnot. by eapply list_elem_of_lookup_2.
    + split; [done|]. intros [|i'] Hi'; [lia|]. cbn. apply Hlast. lia.
Qed.

Lemma last_at_unique l p q x : last_at l p x → last_at l q x → p = q.
Proof.
  intros [Hp Hlp] [Hq Hlq].
  destruct (Nat.lt_trichotomy p q) as [Hlt|[Heq|Hlt]]; [|done|].
  - by destruct (Hlp q Hlt).
  - by destruct (Hlq p Hlt).
Qed.

Lemma last_at_lt l p x : last_at l p x → (p < length l)%nat.
Proof. intros [Hp _]. by eapply lookup_lt_Some. Qed.

(** After the first loop a key of [mat_id] holds its last row. *)
Lemma fill_mat_lookup i0 mat_id m x v :
  fill_mat i0 mat_id m !! x = Some v
  ↔ (∃ p, last_at mat_id p x ∧ v = (to_int (Z.of_nat (i0 + p)), -1))
    ∨ ((x ∉ mat_id) ∧ m !! x = Some v).
Proof.
  revert i0 m. induction mat_id as [|c rest IH]; intros i0 m.
  - cbn. split.
    + intros Hm. right. split; [|done]. by intros Hin; inversion Hin.
    + intros [[p [[Hp _] _]]|[_ Hm]]; [|done]. by rewrite lookup_nil in Hp.
  - cbn [fill_mat]. rewrite IH. split.
    + intros [[p [Hp ->]]|[Hnot Hm]].
      * left. exists (S p). split; [apply last_at_cons; eauto|].
        do 3 f_equal. lia.
      * destruct (decide (c = x)) as [->|Hne].
        -- rewrite lookup_insert_eq in Hm. inversion Hm; subst. left.
           exists 0%nat. split; [apply last_at_cons; eauto|].
           do 3 f_equal. lia.
        -- rewrite lookup_insert_ne in Hm by done. right. split; [|done].
           intros [->|Hin]%elem_of_cons; done.
    + intros [[p [Hp ->]]|[Hnot Hm]].
      * apply last_at_cons in Hp as [[-> [-> Hnot]]|[p' [-> Hp']]].
        -- right. split; [done|]. rewrite lookup_insert_eq.
           do 3 f_equal. lia.
        -- left. exists p'. split; [done|]. do 3 f_equal. lia.
      * right. apply not_elem_of_cons in Hnot as [Hne Hnot]. split; [done|].
        by rewrite lookup_insert_ne.
Qed.

Lemma mark_one_lookup m i c x :
  mark_one m i c !! x
  = if decide (c = x) then (λ v, (v.1, to_int (Z.of_nat i))) <$> m !! x
    else m !! x.
Proof.
  unfold mark_one. case_decide as Hc.
  - subst c. destruct (m !! x) eqn:Hx; [|done]. by rewrite lookup_insert_eq.
  - destruct (m !! c); [|done]. by rewrite lookup_insert_ne.
Qed.

(** After the second loop a key that occurs in [ref_id] holds its last
    reference row; the other keys are as before. *)
Lemma mark_ref_lookup i0 ref_id m x a b :
  mark_ref i0 ref_id m !! x = Some (a, b)
  ↔ ∃ b0, m !! x = Some (a, b0)
      ∧ ((∃ q, last_at ref_id q x ∧ b = to_int (Z.of_nat (i0 + q)))
         ∨ ((x ∉ ref_id) ∧ b = b0)).
Proof.
  revert i0 m. induction ref_id as [|c rest IH]; intros i0 m.
  - cbn. split.
    + intros Hm. exists b. split; [done|]. right. split; [|done].
      by intros Hin; inversion Hin.
    + intros [b0 [Hm [[q [[Hq _] _]]|[_ ->]]]]; [|done].
      by rewrite lookup_nil in Hq.
  - cbn [mark_ref]. rewrite IH. setoid_rewrite mark_one_lookup. split.
    + intros [b0 [Hm Hcase]]. case_decide as Hc.
      * subst c. destruct (m !! x) as [[a' b']|] eqn:Hx; [|done].
        cbn in Hm. inversion Hm; subst. exists b'. split; [done|]. left.
        destruct Hcase as [[q [Hq ->]]|[Hnot ->]].
        -- exists (S q). split; [apply last_at_cons; eauto|]. do 2 f_equal. lia.
        -- exists 0%nat. split; [apply last_at_cons; eauto|]. do 2 f_equal. lia.
      * exists b0. split; [done|].
        destruct Hcase as [[q [Hq ->]]|[Hnot ->]].
        -- left. exists (S q). split; [apply last_at_cons; eauto|].
           do 2 f_equal. lia.
        -- right. split; [|done]. intros [->|Hin]%elem_of_cons; done.
    + intros [b0 [Hm Hcase]]. case_decide as Hc.
      * subst c. rewrite Hm. cbn.
        destruct Hcase as [[q [Hq ->]]|[Hnot ->]].
        -- apply last_at_cons in Hq as [[-> [_ Hnot]]|[q' [-> Hq']]].
           ++ eexists. split; [done|]. right. split; [done|].
              do 2 f_equal. lia.
           ++ eexists. split; [done|]. left. exists q'. split; [done|].
              do 2 f_equal. lia.
        -- destruct Hnot. left.
      * exists b0. split; [done|].
        destruct Hcase as [[q [Hq ->]]|[Hnot ->]].
        -- apply last_at_cons in Hq as [[-> [-> Hnot]]|[q' [-> Hq']]]; [done|].
           left. exists q'. split; [done|]. do 2 f_equal. lia.
        -- right. apply not_elem_of_cons in Hnot as [_ Hnot]. done.
Qed.

(** The map after both loops. *)
Lemma features_map_lookup mat_id ref_id x a b :
  mark_ref 0 ref_id (fill_mat 0 mat_id ∅) !! x = Some (a, b)
  ↔ ∃ p, last_at mat_id p x ∧ a = to_int (Z.of_nat p)
      ∧ ((∃ q, last_at ref_id q x ∧ b = to_int (Z.of_nat q))
         ∨ ((x ∉ ref_id) ∧ b = -1)).
Proof.
  rewrite mark_ref_lookup. setoid_rewrite fill_mat_lookup.
  setoid_rewrite lookup_empty. split.
  - intros [b0 [[[p [Hp Heq]]|[_ ?]] Hcase]]; [|done].
    inversion Heq; subst. exists p. split; [done|]. split; [done|].
    destruct Hcase as [[q [Hq ->]]|[Hnot ->]]; [left|right]; eauto.
  - intros [p [Hp [-> Hcase]]]. exists (-1). split; [left; eauto|].
    destruct Hcase as [[q [Hq ->]]|[Hnot ->]]; [left|right]; eauto.
Qed.

Lemma collect_pairings_elem m v :
  v ∈ collect_pairings m ↔ ∃ x, m !! x = Some v ∧ 0 ≤ v.2.
Proof.
  unfold collect_pairings. rewrite list_elem_of_fmap. split.
  - intros [[x v'] [-> [Hv Hin]%list_elem_of_filter]].
    apply elem_of_map_to_list in Hin. eauto.
  - intros [x [Hx Hv]]. exists (x, v). split; [done|].
    apply list_elem_of_filter. split; [done|]. by apply elem_of_map_to_list.
Qed.

Section bounded.
Variables mat_id ref_id : list Id.
Hypothesis mat_fits : Z.of_nat (length mat_id) ≤ INT_MAX + 1.
Hypothesis ref_fits : Z.of_nat (length ref_id) ≤ INT_MAX + 1.

(** With at most [INT_MAX + 1] rows on either side no row index wraps. *)
Lemma features_map_rows x a b :
  mark_ref 0 ref_id (fill_mat 0 mat_id ∅) !! x = Some (a, b)
  ↔ ∃ p, last_at mat_id p x ∧ a = Z.of_nat p
      ∧ ((∃ q, last_at ref_id q x ∧ b = Z.of_nat q)
         ∨ ((x ∉ ref_id) ∧ b = -1)).
Proof.
  rewrite features_map_lookup. split.
  - intros [p [Hp [-> Hcase]]]. exists p. split; [done|].
    pose proof (last_at_lt _ _ _ Hp).
    split; [apply to_int_small; lia|].
    destruct Hcase as [[q [Hq ->]]|?]; [left|by right].
    exists q. split; [done|]. pose proof (last_at_lt _ _ _ Hq).
    apply to_int_small; lia.
  - intros [p [Hp [-> Hcase]]]. exists p. split; [done|].
    pose proof (last_at_lt _ _ _ Hp).
    split; [symmetry; apply to_int_small; lia|].
    destruct Hcase as [[q [Hq ->]]|?]; [left|by right].
    exists q. split; [done|]. pose proof (last_at_lt _ _ _ Hq).
    symmetry; apply to_int_small; lia.
Qed.

(** A key is determined by its test row, and by its reference row. *)
Lemma features_map_key_of_test x x' a b b' :
  mark_ref 0 ref_id (fill_mat 0 mat_id ∅) !! x = Some (a, b) →
  mark_ref 0 ref_id (fill_mat 0 mat_id ∅) !! x' = Some (a, b') →
  x = x'.
Proof.
  intros [p [[Hp _] [-> _]]]%features_map_rows
         [p' [[Hp' _] [Heq _]]]%features_map_rows.
  apply Nat2Z.inj in Heq as <-. congruence.
Qed.

Lemma features_map_key_of_ref x x' a a' b :
  0 ≤ b →
  mark_ref 0 ref_id (fill_mat 0 mat_id ∅) !! x = Some (a, b) →
  mark_ref 0 ref_id (fill_mat 0 mat_id ∅) !! x' = Some (a', b) →
  x = x'.
Proof.
  intros Hb [p [_ [_ [[q [[Hq _] ->]]|[_ ->]]]]]%features_map_rows
            [p' [_ [_ [[q' [[Hq' _] Heq]]|[_ ?]]]]]%features_map_rows; try lia.
  apply Nat2Z.inj in Heq as <-. congruence.
Qed.

Lemma collect_pairings_NoDup_fst :
  NoDup (fst <$> collect_pairings (mark_ref 0 ref_id (fill_mat 0 mat_id ∅))).
Proof.
  apply NoDup_fmap_2_strong.
  - intros [a b] [a' b'] [x [Hx _]]%collect_pairings_elem
           [x' [Hx' _]]%collect_pairings_elem Heq. cbn in Heq. subst a'.
    pose proof (features_map_key_of_test _ _ _ _ _ Hx Hx') as <-. congruence.
  - unfold collect_pairings. apply NoDup_fmap_2_strong.
    + intros [x [a b]] [x' [a' b']] [_ Hx%elem_of_map_to_list]%list_elem_of_filter
             [_ Hx'%elem_of_map_to_list]%list_elem_of_filter Heq.
      cbn in Heq. inversion Heq; subst a' b'.
      by pose proof (features_map_key_of_test _ _ _ _ _ Hx Hx') as <-.
    + apply NoDup_filter, NoDup_map_to_list.
Qed.

Lemma collect_pairings_NoDup_snd :
  NoDup (snd <$> collect_pairings (mark_ref 0 ref_id (fill_mat 0 mat_id ∅))).
Proof.
  apply NoDup_fmap_2_strong.
  - intros [a b] [a' b'] [x [Hx Hb]]%collect_pairings_elem
           [x' [Hx' _]]%collect_pairings_elem Heq. cbn in Heq, Hb. subst b'.
    pose proof (features_map_key_of_ref _ _ _ _ _ Hb Hx Hx') as <-. congruence.
  - eapply NoDup_fmap_1, collect_pairings_NoDup_fst.
Qed.

(** A pair is emitted exactly when it joins the last row of an id in the
    test dataset with the last row of the same id in the reference. *)
Lemma intersect_features_elem a b :
  (a, b) ∈ intersect_features mat_id ref_id
  ↔ ∃ x p q, last_at mat_id p x ∧ last_at ref_id q x
             ∧ a = Z.of_nat p ∧ b = Z.of_nat q.
Proof.
  unfold intersect_features. rewrite merge_sort_Permutation.
  rewrite collect_pairings_elem. setoid_rewrite features_map_rows. split.
  - intros [x [[p [Hp [-> [[q [Hq ->]]|[_ ->]]]]] Hb]]; cbn in Hb; [|lia].
    by exists x, p, q.
  - intros [x [p [q [Hp [Hq [-> ->]]]]]]. exists x. split; [|cbn; lia].
    exists p. split; [done|]. split; [done|]. left. eauto.
Qed.

End bounded.

(** Sorting pairs whose first components are distinct sorts the first
    components strictly. *)
Lemma pair_le_sorted_fst (l : list (Z * Z)) :
  StronglySorted pair_le l → NoDup (fst <$> l) →
  StronglySorted Z.lt (fst <$> l).
Proof.
  induction 1 as [|p l Hs IH Hall]; intros Hnd; [constructor|].
  rewrite fmap_cons in Hnd. apply NoDup_cons in Hnd as [Hnot Hnd].
  rewrite fmap_cons. constructor; [by apply IH|].
  apply Forall_fmap, Forall_forall. intros q Hq. cbn.
  pose proof (proj1 (Forall_forall _ _) Hall q Hq) as [Hlt|[Heq _]]; [done|].
  destruct Hnot. rewrite Heq. apply list_elem_of_fmap. eauto.
Qed.

Lemma intersect_features_sorted mat_id ref_id :
  Z.of_nat (length mat_id) ≤ INT_MAX + 1 →
  Z.of_nat (length ref_id) ≤ INT_MAX + 1 →
  StronglySorted Z.lt (fst <$> intersect_features mat_id ref_id)
  ∧ NoDup (fst <$> intersect_features mat_id ref_id)
  ∧ NoDup (snd <$> intersect_features mat_id ref_id).
Proof.
  intros Hmat Href. unfold intersect_features.
  set (pairings := collect_pairings _).
  assert (Hfst : NoDup (fst <$> merge_sort pair_le pairings)).
  { rewrite merge_sort_Permutation. by apply collect_pairings_NoDup_fst. }
  split; [|split; [done|]].
  - apply pair_le_sorted_fst; [|done]. apply StronglySorted_merge_sort; apply _.
  - rewrite merge_sort_Permutation. by apply collect_pairings_NoDup_snd.
Qed.

Lemma intersect_features_disjoint mat_id ref_id :
  (∀ x, x ∈ mat_id → x ∉ ref_id) → intersect_features mat_id ref_id = [].
Proof.
  intros Hdisj. unfold intersect_features.
  destruct (collect_pairings _) as [|[a b] l] eqn:Heq; [done|].
  assert (Hin : (a, b) ∈ collect_pairings
                  (mark_ref 0 ref_id (fill_mat 0 mat_id ∅)))
    by (rewrite Heq; left).
  apply collect_pairings_elem in Hin as [x [Hx Hb]].
  apply features_map_lookup in Hx as [p [[Hp _] [_ [[q [[Hq _] _]]|[_ ->]]]]].
  - destruct (Hdisj x); eapply list_elem_of_lookup_2; eauto.
  - cbn in Hb. lia.
Qed.

End intersect_features_facts.

(** ** The loop nest over the markers *)

Lemma map_row_lookup g i j0 row j :
  map_row g i j0 row !! j
  = (λ current, if decide (i = (j0 + j)%nat) then current else g current)
    <$> row !! j.
Proof.
  revert j0 j. induction row as [|current rest IH]; intros j0 j; [done|].
  destruct j as [|j]; cbn.
  - by rewrite Nat.add_0_r.
  - rewrite IH. by replace (S j0 + j)%nat with (j0 + S j)%nat by lia.
Qed.

Lemma map_markers_lookup g i0 markers i :
  map_markers g i0 markers !! i = map_row g (i0 + i) 0 <$> markers !! i.
Proof.
  revert i0 i. induction markers as [|row rows IH]; intros i0 i; [done|].
  destruct i as [|i]; cbn.
  - by rewrite Nat.add_0_r.
  - rewrite IH. by replace (S i0 + i)%nat with (i0 + S i)%nat by lia.
Qed.

(** Entry [(i, j)] of the rewritten markers. *)
Lemma map_markers_entry g markers i j :
  entry (map_markers g 0 markers) i j
  = (λ current, if decide (i = j) then current else g current)
    <$> entry markers i j.
Proof.
  unfold entry. rewrite map_markers_lookup.
  destruct (markers !! i) as [row|]; [|done]. cbn. apply map_row_lookup.
Qed.

Lemma row_entries_elem i j0 row current :
  current ∈ row_entries i j0 row
  ↔ ∃ j, i ≠ (j0 + j)%nat ∧ row !! j = Some current.
Proof.
  revert j0. induction row as [|c rest IH]; intros j0.
  - cbn. split; [by intros Hin; inversion Hin|].
    intros [j [_ Hj]]. by rewrite lookup_nil in Hj.
  - cbn [row_entries]. rewrite elem_of_app, IH. split.
    + intros [Hin|[j [Hne Hj]]].
      * case_decide; [by inversion Hin|].
        apply list_elem_of_singleton in Hin as ->.
        exists 0%nat. split; [lia|done].
      * exists (S j). split; [lia|done].
    + intros [[|j] [Hne Hj]].
      * left. rewrite decide_False by lia. cbn in Hj. inversion Hj. left.
      * right. exists j. split; [lia|done].
Qed.

Lemma markers_entries_elem i0 markers current :
  current ∈ markers_entries i0 markers
  ↔ ∃ i j row, (i0 + i)%nat ≠ j ∧ markers !! i = Some row
               ∧ row !! j = Some current.
Proof.
  revert i0. induction markers as [|r rows IH]; intros i0.
  - cbn. split; [by intros Hin; inversion Hin|].
    intros [i [j [row [_ [Hi _]]]]]. by destruct i.
  - cbn [markers_entries]. rewrite elem_of_app, IH, row_entries_elem. split.
    + intros [[j [Hne Hj]]|[i [j [row [Hne [Hi Hj]]]]]].
      * exists 0%nat, j, r. split; [lia|done].
      * exists (S i), j, row. split; [lia|done].
    + intros [[|i] [j [row [Hne [Hi Hj]]]]].
      * left. cbn in Hi. inversion Hi; subst. exists j. split; [lia|done].
      * right. exists i, j, row. split; [lia|done].
Qed.

(** The off-diagonal entries, by their coordinates. *)
Lemma markers_entries_entry markers current :
  current ∈ markers_entries 0 markers
  ↔ ∃ i j, i ≠ j ∧ entry markers i j = Some current.
Proof.
  rewrite markers_entries_elem. unfold entry. split.
  - intros [i [j [row [Hne [Hi Hj]]]]]. exists i, j. rewrite Hi. done.
  - intros [i [j [Hne Hij]]]. destruct (markers !! i) as [row|] eqn:Hi; [|done].
    exists i, j, row. done.
Qed.

Section visit_facts.
Context {St : Type}.
Variable body : list Z → St → result (list Z * St).
Variable g : list Z → list Z.
Variable u : St → list Z → St.

(** If the body, whenever it returns, returns [g current] and moves the
    state by [u], then so does the loop nest. *)
Section returned.
Hypothesis body_returned : ∀ current s current' s',
  body current s = Ok (current', s') → current' = g current ∧ s' = u s current.

Lemma visit_row_returned i j row s row' s' :
  visit_row body i j row s = Ok (row', s') →
  row' = map_row g i j row ∧ s' = foldl u s (row_entries i j row).
Proof.
  revert j s row' s'. induction row as [|current rest IH]; intros j s row' s'.
  - cbn. by intros [= <- <-].
  - cbn [visit_row map_row row_entries]. case_decide as Hij.
    + destruct (visit_row body i (S j) rest s) as [[rest' s1]| |] eqn:Hrest;
        cbn; [|done..].
      intros [= <- <-]. by destruct (IH _ _ _ _ Hrest) as [-> ->].
    + destruct (body current s) as [[current' s1]| |] eqn:Hbody; cbn; [|done..].
      destruct (visit_row body i (S j) rest s1) as [[rest' s2]| |] eqn:Hrest;
        cbn; [|done..].
      intros [= <- <-]. destruct (body_returned _ _ _ _ Hbody) as [-> ->].
      by destruct (IH _ _ _ _ Hrest) as [-> ->].
Qed.

Lemma visit_markers_returned i markers s markers' s' :
  visit_markers body i markers s = Ok (markers', s') →
  markers' = map_markers g i markers
  ∧ s' = foldl u s (markers_entries i markers).
Proof.
  revert i s markers' s'. induction markers as [|row rows IH];
    intros i s markers' s'.
  - cbn. by intros [= <- <-].
  - cbn [visit_markers map_markers markers_entries].
    destruct (visit_row body i 0 row s) as [[row' s1]| |] eqn:Hrow;
      cbn; [|done..].
    destruct (visit_markers body (S i) rows s1) as [[rows' s2]| |] eqn:Hrows;
      cbn; [|done..].
    intros [= <- <-]. destruct (visit_row_returned _ _ _ _ _ _ Hrow) as [-> ->].
    destruct (IH _ _ _ _ Hrows) as [-> ->]. by rewrite foldl_app.
Qed.
End returned.

(** If the body returns on every off-diagonal entry, the loop nest
    returns. *)
Lemma visit_row_total i j row s :
  (∀ current s, current ∈ row_entries i j row →
                body current s = Ok (g current, u s current)) →
  visit_row body i j row s
  = Ok (map_row g i j row, foldl u s (row_entries i j row)).
Proof.
  revert j s. induction row as [|current rest IH]; intros j s Hbody; [done|].
  cbn [visit_row map_row row_entries] in *. case_decide as Hij.
  - rewrite IH; [done|]. intros c s1 Hc. apply Hbody. by rewrite app_nil_l.
  - rewrite Hbody by (apply elem_of_app; left; left). cbn.
    rewrite IH; [done|]. intros c s1 Hc. apply Hbody.
    apply elem_of_app. by right.
Qed.

Lemma visit_markers_total i markers s :
  (∀ current s, current ∈ markers_entries i markers →
                body current s = Ok (g current, u s current)) →
  visit_markers body i markers s
  = Ok (map_markers g i markers, foldl u s (markers_entries i markers)).
Proof.
  revert i s. induction markers as [|row rows IH]; intros i s Hbody; [done|].
  cbn [visit_markers map_markers markers_entries] in *.
  rewrite (visit_row_total i 0 row s).
  - cbn. rewrite IH; [by rewrite foldl_app|].
    intros c s1 Hc. apply Hbody. apply elem_of_app. by right.
  - intros c s1 Hc. apply Hbody. apply elem_of_app. by left.
Qed.

(** The loop nest fails only the way its body does. *)
Lemma visit_row_not_EndDeref i j row s :
  (∀ current s, body current s ≠ EndDeref) →
  visit_row body i j row s ≠ EndDeref.
Proof.
  intros Hbody. revert j s. induction row as [|current rest IH]; intros j s;
    [done|].
  cbn [visit_row]. case_decide.
  - pose proof (IH (S j) s). by destruct (visit_row body i (S j) rest s) as [[]| |].
  - pose proof (Hbody current s).
    destruct (body current s) as [[current' s1]| |]; cbn; [|done..].
    pose proof (IH (S j) s1).
    by destruct (visit_row body i (S j) rest s1) as [[]| |].
Qed.

Lemma visit_markers_not_EndDeref i markers s :
  (∀ current s, body current s ≠ EndDeref) →
  visit_markers body i markers s ≠ EndDeref.
Proof.
  intros Hbody. revert i s. induction markers as [|row rows IH]; intros i s;
    [done|].
  cbn [visit_markers]. pose proof (visit_row_not_EndDeref i 0 row s Hbody).
  destruct (visit_row body i 0 row s) as [[row' s1]| |]; cbn; [|done..].
  pose proof (IH (S i) s1).
  by destruct (visit_markers body (S i) rows s1) as [[]| |].
Qed.

End visit_facts.

(** ** [subset_markers]: the first pass *)

Lemma to_size_t_nonneg top : 0 ≤ to_size_t top.
Proof. unfold to_size_t. apply Z.mod_pos_bound. lia. Qed.

Lemma to_size_t_small top : 0 ≤ top ≤ INT_MAX → to_size_t top = top.
Proof. unfold to_size_t, INT_MAX. intros Htop. apply Z.mod_small. lia. Qed.

Lemma reserve_small top : 0 ≤ top ≤ INT_MAX → reserve top = Ok tt.
Proof.
  intros Htop. unfold reserve. rewrite to_size_t_small by done.
  rewrite decide_True; [done|]. unfold vector_max_size, INT_MAX in *. lia.
Qed.

(** A negative [int] converts to more than any vector can hold. *)
Lemma reserve_negative top : - INT_MAX - 1 ≤ top < 0 → reserve top = LengthError.
Proof.
  intros Htop. unfold reserve, to_size_t.
  rewrite decide_False; [done|].
  replace (top mod 2 ^ 64) with (top + 2 ^ 64).
  - unfold vector_max_size, INT_MAX in *. lia.
  - apply Z.mod_unique with (q := -1); unfold INT_MAX in *; lia.
Qed.

(** The scan keeps the first available genes, as many as still fit. *)
Lemma keep_available_spec available top current all_markers replacement :
  let room := (Z.to_nat (to_size_t top) - length replacement)%nat in
  let more := take room (filter (λ g, g ∈ available) current) in
  keep_available available top current all_markers replacement
  = (list_to_set more ∪ all_markers, replacement ++ more).
Proof.
  pose proof (to_size_t_nonneg top) as Hnn.
  revert all_markers replacement.
  induction current as [|g rest IH]; intros all_markers replacement; cbn zeta.
  - cbn. rewrite take_nil, app_nil_r. cbn. by rewrite (left_id_L ∅ (∪)).
  - cbn [keep_available]. case_decide as Hroom.
    + destruct (Z.to_nat (to_size_t top) - length replacement)%nat
        as [|room] eqn:Hr; [lia|].
      case_decide as Hg.
      * rewrite IH. cbn zeta. rewrite length_app. cbn [length].
        replace (Z.to_nat (to_size_t top) - (length replacement + 1))%nat
          with room by lia.
        rewrite filter_cons_True by done. cbn [take list_to_set].
        rewrite <- (assoc_L (++)). cbn [app]. f_equal.
        rewrite (assoc_L (∪)). f_equal. apply (comm_L (∪)).
      * rewrite IH. cbn zeta. rewrite Hr. by rewrite filter_cons_False.
    + replace (Z.to_nat (to_size_t top) - length replacement)%nat with 0%nat
        by lia.
      rewrite take_0. cbn. by rewrite app_nil_r, (left_id_L ∅ (∪)).
Qed.

Lemma retain_top_returned available top current all_markers current' all' :
  retain_top available top current all_markers = Ok (current', all') →
  current' = filtered_top available top current
  ∧ all' = list_to_set (filtered_top available top current) ∪ all_markers.
Proof.
  unfold retain_top. destruct (reserve top) as [[]| |]; cbn; [|done..].
  rewrite keep_available_spec. cbn zeta. cbn [length].
  rewrite Nat.sub_0_r, app_nil_l. by intros [= <- <-].
Qed.

Lemma retain_top_total available top current all_markers :
  reserve top = Ok tt →
  retain_top available top current all_markers
  = Ok (filtered_top available top current,
        list_to_set (filtered_top available top current) ∪ all_markers).
Proof.
  intros Hres. unfold retain_top. rewrite Hres. cbn.
  rewrite keep_available_spec. cbn zeta. cbn [length].
  by rewrite Nat.sub_0_r, app_nil_l.
Qed.

Lemma retain_top_not_EndDeref available top current all_markers :
  retain_top available top current all_markers ≠ EndDeref.
Proof.
  unfold retain_top, reserve. case_decide; cbn; [|done].
  by destruct (keep_available _ _ _ _ _).
Qed.

(** The genes gathered over a list of entries. *)
Lemma gathered_elem (f : list Z → list Z) (entries : list (list Z))
    (s : gset Z) g :
  g ∈ foldl (λ s current, list_to_set (f current) ∪ s) s entries
  ↔ g ∈ s ∨ ∃ current, current ∈ entries ∧ g ∈ f current.
Proof.
  revert s. induction entries as [|c entries IH]; intros s.
  - cbn. split; [by left|]. intros [?|[c [Hc _]]]; [done|by inversion Hc].
  - cbn [foldl]. rewrite IH, elem_of_union, elem_of_list_to_set. split.
    + intros [[Hg|Hg]|[c' [Hc' Hg]]].
      * right. exists c. split; [left|done].
      * by left.
      * right. exists c'. split; [by right|done].
    + intros [Hg|[c' [Hc' Hg]]]; [by left; right|].
      apply elem_of_cons in Hc' as [->|Hc']; [by left; left|].
      right. eauto.
Qed.

Lemma filter_markers_returned intersection markers top markers1 all_markers :
  filter_markers intersection markers top = Ok (markers1, all_markers) →
  markers1 = map_markers (filtered_top (available_of intersection) top) 0 markers
  ∧ all_markers = gathered (filtered_top (available_of intersection) top) markers.
Proof.
  unfold filter_markers. intros Hvisit.
  eapply (visit_markers_returned _ _
            (λ s current, list_to_set
               (filtered_top (available_of intersection) top current) ∪ s))
    in Hvisit; [done|].
  intros current s current' s'. apply retain_top_returned.
Qed.

Lemma filter_markers_total intersection markers top :
  reserve top = Ok tt →
  filter_markers intersection markers top
  = Ok (map_markers (filtered_top (available_of intersection) top) 0 markers,
        gathered (filtered_top (available_of intersection) top) markers).
Proof.
  intros Hres. unfold filter_markers.
  apply (visit_markers_total _ _
           (λ s current, list_to_set
              (filtered_top (available_of intersection) top current) ∪ s)).
  intros current s _. by apply retain_top_total.
Qed.

Lemma filter_markers_not_EndDeref intersection markers top :
  filter_markers intersection markers top ≠ EndDeref.
Proof.
  apply visit_markers_not_EndDeref. intros current s.
  apply retain_top_not_EndDeref.
Qed.

(** ** [subset_markers]: compaction and reindexing *)

Lemma last_at_app_r (keys : list Z) g :
  last_at (keys ++ [g]) (length keys) g.
Proof.
  split.
  - by rewrite lookup_app_r, Nat.sub_diag.
  - intros i' Hi'. rewrite lookup_ge_None_2; [done|].
    rewrite length_app. cbn. lia.
Qed.

Lemma last_at_app_ne (keys : list Z) g x c :
  x ≠ g → last_at (keys ++ [g]) c x ↔ last_at keys c x.
Proof.
  intros Hne. unfold last_at. split.
  - intros [Hc Hlast].
    assert (Hlt : (c < length keys)%nat).
    { apply lookup_lt_Some in Hc as Hlt. rewrite length_app in Hlt. cbn in Hlt.
      destruct (decide (c = length keys)) as [->|]; [|lia].
      rewrite lookup_app_r, Nat.sub_diag in Hc by done. cbn in Hc. congruence. }
    rewrite lookup_app_l in Hc by done. split; [done|].
    intros i' Hi' Hx. apply (Hlast i' Hi').
    rewrite lookup_app_l; [done|]. by eapply lookup_lt_Some.
  - intros [Hc Hlast]. apply lookup_lt_Some in Hc as Hlt.
    split; [by rewrite lookup_app_l|].
    intros i' Hi'. destruct (decide (i' < length keys)%nat).
    + rewrite lookup_app_l by done. by apply Hlast.
    + rewrite lookup_app_r by lia.
      destruct (i' - length keys)%nat as [|k]; [|by destruct k].
      intros [= ?]. congruence.
Qed.

(** Indexing one more key. *)
Lemma index_subset_snoc i0 keys g mapping :
  index_subset i0 (keys ++ [g]) mapping
  = <[g := to_int (Z.of_nat (i0 + length keys))]> (index_subset i0 keys mapping).
Proof.
  revert i0 mapping. induction keys as [|x keys IH]; intros i0 mapping.
  - cbn. by rewrite Nat.add_0_r.
  - cbn [app index_subset length]. rewrite IH. do 3 f_equal. lia.
Qed.

(** A key of the mapping holds the last position at which it was indexed. *)
Lemma index_subset_lookup keys g v :
  index_subset 0 keys ∅ !! g = Some v
  ↔ ∃ c, last_at keys c g ∧ v = to_int (Z.of_nat c).
Proof.
  induction keys as [|x keys IH] using rev_ind.
  - cbn. rewrite lookup_empty. split; [done|].
    intros [c [[Hc _] _]]. by rewrite lookup_nil in Hc.
  - rewrite index_subset_snoc. cbn [Nat.add].
    destruct (decide (x = g)) as [->|Hne].
    + rewrite lookup_insert_eq. split.
      * intros [= <-]. exists (length keys). split; [|done]. apply last_at_app_r.
      * intros [c [Hc ->]].
        by rewrite (last_at_unique _ _ _ _ Hc (last_at_app_r keys g)).
    + rewrite lookup_insert_ne by done. rewrite IH.
      by setoid_rewrite (last_at_app_ne keys x g _ (not_eq_sym Hne)).
Qed.

Lemma index_subset_is_Some keys g :
  g ∈ keys → is_Some (index_subset 0 keys ∅ !! g).
Proof.
  induction keys as [|x keys IH] using rev_ind; [by intros Hin; inversion Hin|].
  rewrite index_subset_snoc. intros [Hin|Hin%list_elem_of_singleton]%elem_of_app.
  - destruct (decide (x = g)) as [->|Hne].
    + rewrite lookup_insert_eq. eauto.
    + rewrite lookup_insert_ne by done. by apply IH.
  - subst. rewrite lookup_insert_eq. eauto.
Qed.

(** The state of the in-place compaction after [n] iterations: the first
    [counter] slots hold the retained pairs among the first [n], the slots
    from [n] on are untouched. *)
Lemma compact_prefix all_markers (intersection : Intersection) n :
  (n ≤ length intersection)%nat →
  let retained := filter (λ p, p.2 ∈ all_markers) (take n intersection) in
  ∃ intersection',
    foldl (compact_step all_markers) (intersection, ∅, 0%nat) (seq 0 n)
    = (intersection', index_subset 0 (snd <$> retained) ∅, length retained)
    ∧ length intersection' = length intersection
    ∧ take (length retained) intersection' = retained
    ∧ drop n intersection' = drop n intersection.
Proof.
  induction n as [|n IH]; intros Hn; cbn zeta.
  - exists intersection. by rewrite take_0.
  - destruct IH as [cur [Hfold [Hlen [Htake Hdrop]]]]; [lia|].
    destruct (lookup_lt_is_Some_2 intersection n) as [p Hp]; [lia|].
    assert (Hcur : cur !! n = Some p).
    { pose proof (lookup_drop cur n 0) as Hl.
      pose proof (lookup_drop intersection n 0) as Hr.
      rewrite Nat.add_0_r in Hl, Hr. by rewrite <- Hl, Hdrop, Hr. }
    rewrite (take_S_r _ _ _ Hp), filter_app.
    set (retained := filter (λ p, p.2 ∈ all_markers) (take n intersection)) in *.
    assert (Hcount : (length retained ≤ n)%nat).
    { unfold retained. etrans; [apply length_filter|].
      rewrite length_take. lia. }
    rewrite seq_S, foldl_app, Hfold. cbn [foldl Nat.add compact_step].
    rewrite Hcur. case_decide as Hin.
    + assert (Hagain : <[length retained := p]> cur !! n = Some p).
      { destruct (decide (length retained = n)) as [Heq|Hne].
        - rewrite Heq. apply list_lookup_insert_eq. lia.
        - by rewrite list_lookup_insert_ne. }
      cbn zeta. rewrite Hagain.
      rewrite filter_cons_True, filter_nil by done.
      exists (<[length retained := p]> cur).
      rewrite fmap_app. cbn [fmap list_fmap].
      rewrite index_subset_snoc, length_app, length_fmap. cbn [length Nat.add].
      rewrite Nat.add_1_r, length_insert. split; [done|]. split; [done|]. split.
      * rewrite (take_S_r _ _ p).
        -- rewrite take_insert_ge by lia. by rewrite Htake.
        -- apply list_lookup_insert_eq. lia.
      * rewrite drop_insert_lt by lia.
        replace (S n) with (n + 1)%nat by lia.
        by rewrite <- !drop_drop, Hdrop.
    + rewrite filter_cons_False, filter_nil, app_nil_r by done.
      exists cur. split; [done|]. split; [done|]. split; [done|].
      replace (S n) with (n + 1)%nat by lia.
      by rewrite <- !drop_drop, Hdrop.
Qed.

(** The compaction keeps, in order, the pairs whose reference row is a
    retained marker, and numbers their reference rows by position. *)
Lemma compact_intersection_spec all_markers (intersection : Intersection) :
  let retained := filter (λ p, p.2 ∈ all_markers) intersection in
  compact_intersection all_markers intersection
  = (retained, index_subset 0 (snd <$> retained) ∅).
Proof.
  cbn zeta. unfold compact_intersection.
  destruct (compact_prefix all_markers intersection (length intersection))
    as [cur [Hfold [_ [Htake _]]]]; [done|].
  rewrite (take_ge intersection (length intersection)) in Hfold, Htake by done.
  by rewrite Hfold, Htake.
Qed.

Lemma reindex_returned mapping current current' :
  reindex mapping current = Ok current' → current' = renumber mapping current.
Proof.
  revert current'. induction current as [|g rest IH]; intros current'; cbn.
  - by intros [= <-].
  - destruct (mapping !! g) as [v|]; [|done].
    destruct (reindex mapping rest) as [rest'| |]; cbn; [|done..].
    intros [= <-]. by rewrite (IH rest').
Qed.

Lemma reindex_total mapping current :
  (∀ g, g ∈ current → is_Some (mapping !! g)) →
  reindex mapping current = Ok (renumber mapping current).
Proof.
  induction current as [|g rest IH]; intros Hdom; [done|]. cbn.
  destruct (Hdom g) as [v Hv]; [left|]. rewrite Hv.
  rewrite IH; [done|]. intros g' Hg'. apply Hdom. by right.
Qed.

Lemma map_markers_entries f markers current' :
  current' ∈ markers_entries 0 (map_markers f 0 markers)
  ↔ ∃ current, current ∈ markers_entries 0 markers ∧ current' = f current.
Proof.
  rewrite markers_entries_entry. setoid_rewrite markers_entries_entry.
  setoid_rewrite map_markers_entry. split.
  - intros [i [j [Hne Hij]]].
    destruct (entry markers i j) as [current|] eqn:Hc; [|done].
    cbn in Hij. rewrite decide_False in Hij by done. inversion Hij; subst.
    exists current. eauto.
  - intros [current [[i [j [Hne Hij]]] ->]]. exists i, j. split; [done|].
    rewrite Hij. cbn. by rewrite decide_False.
Qed.

Lemma map_markers_twice_entry f1 f2 markers i j :
  entry (map_markers f2 0 (map_markers f1 0 markers)) i j
  = (λ current, if decide (i = j) then current else f2 (f1 current))
    <$> entry markers i j.
Proof.
  rewrite !map_markers_entry. destruct (entry markers i j); [|done].
  cbn. by case_decide.
Qed.

(** The second pass returns when every gene it looks up is a key. *)
Lemma reindex_pass_total mapping markers1 :
  (∀ current g, current ∈ markers_entries 0 markers1 → g ∈ current →
                is_Some (mapping !! g)) →
  visit_markers (reindex_body mapping) 0 markers1 tt
  = Ok (map_markers (renumber mapping) 0 markers1, tt).
Proof.
  intros Hdom.
  rewrite (visit_markers_total _ (renumber mapping) (λ s _, s)).
  - by destruct (foldl _ _ _).
  - intros current s Hc. unfold reindex_body.
    rewrite reindex_total; [done|]. intros g. by apply Hdom.
Qed.

Lemma reindex_pass_returned mapping markers1 markers2 s :
  visit_markers (reindex_body mapping) 0 markers1 tt = Ok (markers2, s) →
  markers2 = map_markers (renumber mapping) 0 markers1.
Proof.
  intros Hvisit.
  eapply (visit_markers_returned _ (renumber mapping) (λ s _, s)) in Hvisit;
    [by destruct Hvisit|].
  intros current s0 current' s'. unfold reindex_body.
  destruct (reindex mapping current) as [c| |] eqn:Hre; cbn; [|done..].
  intros [= <- <-]. by rewrite (reindex_returned _ _ _ Hre).
Qed.

Section subset_markers_facts.
Variables (intersection : Intersection) (markers : Markers) (top : Z).

#[local] Abbreviation keep := (filtered_top (available_of intersection) top).
#[local] Abbreviation all_kept := (gathered keep markers).
#[local] Abbreviation retained :=
  (filter (λ p : Z * Z, p.2 ∈ all_kept) intersection).
#[local] Abbreviation new_index := (index_subset 0 (snd <$> retained) ∅).

Lemma filtered_top_elem g current :
  g ∈ keep current → g ∈ current ∧ g ∈ snd <$> intersection.
Proof.
  unfold filtered_top. intros Hg%subseteq_take.
  apply list_elem_of_filter in Hg as [Hav Hg]. split; [done|].
  by apply elem_of_list_to_set in Hav.
Qed.

(** Every gene that the first pass keeps is in [all_markers], is the
    reference row of some pair, and is a key of the mapping. *)
Lemma kept_is_indexed current g :
  current ∈ markers_entries 0 markers → g ∈ keep current →
  g ∈ all_kept ∧ g ∈ snd <$> intersection ∧ is_Some (new_index !! g).
Proof.
  intros Hc Hg.
  assert (Hall : g ∈ all_kept) by (apply gathered_elem; right; eauto).
  destruct (filtered_top_elem _ _ Hg) as [_ Hsnd]. split; [done|]. split; [done|].
  apply index_subset_is_Some.
  apply list_elem_of_fmap in Hsnd as [p [-> Hp]].
  apply list_elem_of_fmap. exists p. split; [done|].
  by apply list_elem_of_filter.
Qed.

Lemma subset_markers_second_pass :
  visit_markers (reindex_body new_index) 0 (map_markers keep 0 markers) tt
  = Ok (map_markers (renumber new_index) 0 (map_markers keep 0 markers), tt).
Proof.
  apply reindex_pass_total. intros current' g Hc' Hg.
  apply map_markers_entries in Hc' as [current [Hc ->]].
  by apply (kept_is_indexed current g).
Qed.

Lemma subset_markers_returned intersection' markers' :
  subset_markers intersection markers top = Ok (intersection', markers') →
  intersection' = retained
  ∧ markers' = map_markers (renumber new_index) 0 (map_markers keep 0 markers).
Proof.
  unfold subset_markers.
  destruct (filter_markers intersection markers top) as [[markers1 all]| |]
    eqn:Hfirst; cbn; [|done..].
  apply filter_markers_returned in Hfirst as [-> ->].
  rewrite compact_intersection_spec. cbn zeta.
  rewrite subset_markers_second_pass. cbn. by intros [= <- <-].
Qed.

Lemma subset_markers_total :
  reserve top = Ok tt →
  subset_markers intersection markers top
  = Ok (retained,
        map_markers (renumber new_index) 0 (map_markers keep 0 markers)).
Proof.
  intros Hres. unfold subset_markers.
  rewrite filter_markers_total by done. cbn.
  rewrite compact_intersection_spec. cbn zeta.
  by rewrite subset_markers_second_pass.
Qed.

Lemma subset_markers_not_EndDeref :
  subset_markers intersection markers top ≠ EndDeref.
Proof.
  unfold subset_markers.
  pose proof (filter_markers_not_EndDeref intersection markers top) as Hne.
  destruct (filter_markers intersection markers top) as [[markers1 all]| |]
    eqn:Hfirst; cbn; [|done..].
  apply filter_markers_returned in Hfirst as [-> ->].
  rewrite compact_intersection_spec. cbn zeta.
  by rewrite subset_markers_second_pass.
Qed.

(** Without wrap-around a new index is a position of the compacted
    intersection, and the pair at that position has the gene as its
    reference row. *)
Lemma new_index_position current g :
  Z.of_nat (length intersection) ≤ INT_MAX + 1 →
  current ∈ markers_entries 0 markers → g ∈ keep current →
  let m := default 0 (new_index !! g) in
  0 ≤ m < Z.of_nat (length retained)
  ∧ snd <$> retained !! Z.to_nat m = Some g.
Proof.
  intros Hfits Hc Hg. cbn zeta.
  destruct (kept_is_indexed current g Hc Hg) as [_ [_ [v Hv]]].
  rewrite Hv. cbn. apply index_subset_lookup in Hv as [c [Hlast ->]].
  pose proof (last_at_lt _ _ _ Hlast) as Hlt. rewrite length_fmap in Hlt.
  pose proof (length_filter (λ p : Z * Z, p.2 ∈ all_kept) intersection).
  rewrite to_int_small by lia. split; [lia|].
  rewrite Nat2Z.id. destruct Hlast as [Hlook _].
  by rewrite list_lookup_fmap in Hlook.
Qed.

End subset_markers_facts.

(** ** [subset_markers] for identical feature spaces *)

Section subset_markers_all_facts.
Variables (markers : Markers) (top : Z).

#[local] Abbreviation all_truncated := (gathered (truncate top) markers).
#[local] Abbreviation sorted_subset :=
  (merge_sort Z.le (elements all_truncated)).
#[local] Abbreviation subset_index := (index_subset 0 sorted_subset ∅).

Lemma truncate_pass :
  visit_markers (truncate_body top) 0 markers ∅
  = Ok (map_markers (truncate top) 0 markers, all_truncated).
Proof.
  by apply (visit_markers_total _ (truncate top)
              (λ s current, list_to_set (truncate top current) ∪ s)).
Qed.

Lemma sorted_subset_elem g : g ∈ sorted_subset ↔ g ∈ all_truncated.
Proof. by rewrite merge_sort_Permutation, elem_of_elements. Qed.

Lemma sorted_subset_NoDup : NoDup sorted_subset.
Proof. rewrite merge_sort_Permutation. apply NoDup_elements. Qed.

Lemma sorted_subset_sorted : StronglySorted Z.le sorted_subset.
Proof. apply StronglySorted_merge_sort; apply _. Qed.

Lemma truncated_is_indexed current g :
  current ∈ markers_entries 0 markers → g ∈ truncate top current →
  is_Some (subset_index !! g).
Proof.
  intros Hc Hg. apply index_subset_is_Some, sorted_subset_elem.
  apply gathered_elem. right. eauto.
Qed.

(** This overload always returns. *)
Lemma subset_markers_all_spec :
  subset_markers_all markers top
  = Ok (sorted_subset,
        map_markers (renumber subset_index) 0
          (map_markers (truncate top) 0 markers)).
Proof.
  unfold subset_markers_all. rewrite truncate_pass. cbn.
  rewrite reindex_pass_total; [done|].
  intros current' g Hc' Hg.
  apply map_markers_entries in Hc' as [current [Hc ->]].
  by apply (truncated_is_indexed current g).
Qed.

(** Without wrap-around a new index is the position of the gene in the
    returned subset. *)
Lemma subset_index_position current g :
  Z.of_nat (length sorted_subset) ≤ INT_MAX + 1 →
  current ∈ markers_entries 0 markers → g ∈ truncate top current →
  let m := default 0 (subset_index !! g) in
  0 ≤ m < Z.of_nat (length sorted_subset)
  ∧ sorted_subset !! Z.to_nat m = Some g.
Proof.
  intros Hfits Hc Hg. cbn zeta.
  destruct (truncated_is_indexed current g Hc Hg) as [v Hv].
  rewrite Hv. cbn. apply index_subset_lookup in Hv as [c [Hlast ->]].
  pose proof (last_at_lt _ _ _ Hlast) as Hlt.
  rewrite to_int_small by lia. split; [lia|].
  rewrite Nat2Z.id. by destruct Hlast.
Qed.

End subset_markers_all_facts.

Lemma truncate_small top current :
  0 ≤ top ≤ INT_MAX →
  truncate top current
  = take (Z.to_nat (Z.min top (Z.of_nat (length current)))) current.
Proof.
  intros Htop. unfold truncate. rewrite to_size_t_small by done.
  by rewrite Z.min_comm.
Qed.

Lemma filtered_top_small intersection top current :
  0 ≤ top ≤ INT_MAX →
  filtered_top (available_of intersection) top current
  = take (Z.to_nat top) (filter (λ g, g ∈ snd <$> intersection) current).
Proof.
  intros Htop. unfold filtered_top. rewrite to_size_t_small by done.
  f_equal. apply list_filter_iff. intros g. unfold available_of.
  apply elem_of_list_to_set.
Qed.

(** ** The loop of [classify_integrated] *)

Section classify_integrated_facts.
Context {Float_ : Type} `{FloatOps Float_}.
Variable nref : nat.
Variable compute_score : nat → nat → Float_.

#[local] Abbreviation running i := (running_of nref compute_score i).
#[local] Abbreviation cell := (classify_cell nref compute_score).
#[local] Abbreviation range := (classify_range nref compute_score).

(** The running triple does not depend on the score buffers. *)
Lemma scan_ref_running i rs st sc :
  (foldl (scan_ref compute_score i) (st, sc) rs).1
  = foldl (λ st r, update st r (compute_score r i)) st rs.
Proof.
  revert st sc. induction rs as [|r rs IH]; intros st sc; [done|].
  cbn [foldl]. unfold scan_ref at 2. cbn [fst snd]. apply IH.
Qed.

Lemma classify_cell_best buffers i :
  best (cell buffers i)
  = (λ b, <[i := best_ref (running i)]> b) <$> best buffers.
Proof.
  unfold classify_cell, running_of.
  rewrite <- (scan_ref_running i (seq 0 nref) init_running (scores buffers)).
  by destruct (foldl _ _ _).
Qed.

Lemma classify_cell_delta buffers i :
  delta (cell buffers i)
  = (λ d, <[i := delta_of nref (running i)]> d) <$> delta buffers.
Proof.
  unfold classify_cell, running_of.
  rewrite <- (scan_ref_running i (seq 0 nref) init_running (scores buffers)).
  by destruct (foldl _ _ _).
Qed.

(** Writing [f k] at every index [k] of a list of indices. *)
Lemma foldl_insert_lookup {A} (f : nat → A) (ks : list nat) (d : list A) i :
  foldl (λ d k, <[k := f k]> d) d ks !! i
  = if decide (i ∈ ks ∧ (i < length d)%nat) then Some (f i) else d !! i.
Proof.
  induction ks as [|k ks IH] using rev_ind.
  - cbn. rewrite decide_False; [done|]. intros [Hd _]. by inversion Hd.
  - rewrite foldl_app. cbn [foldl].
    assert (Hlen : length (foldl (λ d k, <[k := f k]> d) d ks) = length d).
    { clear. revert d. induction ks as [|k ks IH]; intros d; [done|].
      cbn. rewrite IH. apply length_insert. }
    destruct (decide (i < length d)%nat) as [Hlt|Hge].
    + destruct (decide (k = i)) as [->|Hne].
      * rewrite decide_True.
        -- apply list_lookup_insert_eq. by rewrite Hlen.
        -- split; [|done]. apply elem_of_app. right. by apply list_elem_of_singleton.
      * rewrite list_lookup_insert_ne by done. rewrite IH.
        assert (Hiff : i ∈ ks ++ [k] ↔ i ∈ ks).
        { rewrite elem_of_app, list_elem_of_singleton.
          split; [intros [?|?]; [done|congruence]|by left]. }
        destruct (decide (i ∈ ks)) as [Hin|Hin].
        -- rewrite !decide_True; tauto.
        -- rewrite !decide_False; tauto.
    + rewrite (decide_False (P := _ ∧ _)) by tauto.
      rewrite !lookup_ge_None_2; [done|lia|].
      rewrite length_insert, Hlen. lia.
Qed.

Lemma classify_range_best start len buffers :
  best (range start len buffers)
  = (λ b, foldl (λ b i, <[i := best_ref (running i)]> b) b (seq start len))
    <$> best buffers.
Proof.
  unfold classify_range.
  generalize (seq start len) as cells. intros cells. revert buffers.
  induction cells as [|i cells IH]; intros buffers.
  - cbn. by destruct (best buffers).
  - cbn [foldl]. rewrite IH, classify_cell_best. by destruct (best buffers).
Qed.

Lemma classify_range_delta start len buffers :
  delta (range start len buffers)
  = (λ d, foldl (λ d i, <[i := delta_of nref (running i)]> d) d
            (seq start len)) <$> delta buffers.
Proof.
  unfold classify_range.
  generalize (seq start len) as cells. intros cells. revert buffers.
  induction cells as [|i cells IH]; intros buffers.
  - cbn. by destruct (delta buffers).
  - cbn [foldl]. rewrite IH, classify_cell_delta. by destruct (delta buffers).
Qed.

(** What a worker leaves in [best] and [delta] for a cell of its range. *)
Lemma classify_range_best_at start len buffers b i :
  best buffers = Some b → (start ≤ i < start + len)%nat → (i < length b)%nat →
  ∃ b', best (range start len buffers) = Some b'
        ∧ b' !! i = Some (best_ref (running i)).
Proof.
  intros Hb Hi Hlen. rewrite classify_range_best, Hb. eexists. split; [done|].
  rewrite (foldl_insert_lookup (λ i, best_ref (running i))).
  rewrite decide_True; [done|]. split; [|done]. apply elem_of_seq. lia.
Qed.

Lemma classify_range_delta_at start len buffers d i :
  delta buffers = Some d → (start ≤ i < start + len)%nat → (i < length d)%nat →
  ∃ d', delta (range start len buffers) = Some d'
        ∧ d' !! i = Some (delta_of nref (running i)).
Proof.
  intros Hd Hi Hlen. rewrite classify_range_delta, Hd. eexists. split; [done|].
  rewrite (foldl_insert_lookup (λ i, delta_of nref (running i))).
  rewrite decide_True; [done|]. split; [|done]. apply elem_of_seq. lia.
Qed.

(** *** The score buffers *)

Lemma store_score_lookup (sc : list (option (list Float_))) r i v r' :
  store_score sc r i v !! r'
  = if decide (r' = r) then fmap (M := option) (<[i := v]>) <$> sc !! r'
    else sc !! r'.
Proof.
  unfold store_score. case_decide as Hr.
  - subst r'. destruct (sc !! r) as [[column|]|] eqn:Hsc; cbn; [|done..].
    apply list_lookup_insert_eq. by eapply lookup_lt_Some.
  - destruct (sc !! r) as [[column|]|]; [|done..].
    by rewrite list_lookup_insert_ne.
Qed.

Lemma scan_ref_scores i rs st (sc : list (option (list Float_))) :
  (foldl (scan_ref compute_score i) (st, sc) rs).2
  = foldl (λ sc r, store_score sc r i (compute_score r i)) sc rs.
Proof.
  revert st sc. induction rs as [|r rs IH]; intros st sc; [done|].
  cbn [foldl]. unfold scan_ref at 2. cbn [fst snd]. apply IH.
Qed.

(** The loop over the references writes the score of cell [i] into every
    non-null column it visits. *)
Lemma store_scores_lookup i rs (sc : list (option (list Float_))) r :
  foldl (λ sc r, store_score sc r i (compute_score r i)) sc rs !! r
  = (if decide (r ∈ rs)
     then fmap (M := option) (<[i := compute_score r i]>) else id)
    <$> sc !! r.
Proof.
  revert sc. induction rs as [|r0 rs IH]; intros sc.
  - cbn. rewrite decide_False by (by intros Hin; inversion Hin).
    by destruct (sc !! r).
  - cbn [foldl]. rewrite IH, store_score_lookup.
    destruct (decide (r = r0)) as [->|Hne].
    + rewrite (decide_True (P := r0 ∈ r0 :: rs)) by left.
      destruct (sc !! r0) as [[column|]|]; cbn; case_decide; cbn; try done.
      by rewrite list_insert_insert_eq.
    + destruct (decide (r ∈ rs)) as [Hin|Hin].
      * by rewrite decide_True by (by right).
      * rewrite decide_False; [done|].
        by intros [?|?]%elem_of_cons.
Qed.

(** One cell, as three independent writes. *)
Lemma classify_cell_eq buffers i :
  cell buffers i
  = {| best := (λ b, <[i := best_ref (running i)]> b) <$> best buffers;
       scores := foldl (λ sc r, store_score sc r i (compute_score r i))
                   (scores buffers) (seq 0 nref);
       delta := (λ d, <[i := delta_of nref (running i)]> d) <$> delta buffers |}.
Proof.
  unfold classify_cell, running_of.
  rewrite <- (scan_ref_running i (seq 0 nref) init_running (scores buffers)).
  rewrite <- (scan_ref_scores i (seq 0 nref) init_running (scores buffers)).
  by destruct (foldl _ _ _).
Qed.




Lemma classify_range_scores_at start len buffers column r i :
  scores buffers !! r = Some (Some column) → (r < nref)%nat →
  (start ≤ i < start + len)%nat → (i < length column)%nat →
  ∃ column', scores (range start len buffers) !! r = Some (Some column')
             ∧ column' !! i = Some (compute_score r i).
Proof.
  intros Hsc Hr Hi Hlen.
  assert (Hgen : ∀ cells buffers column,
            scores buffers !! r = Some (Some column) →
            scores (foldl cell buffers cells) !! r
            = Some (Some (foldl (λ c i, <[i := compute_score r i]> c)
                            column cells))).
  { clear -Hr. induction cells as [|c cells IH]; intros buffers column Hsc;
      [done|].
    cbn [foldl]. apply IH. rewrite classify_cell_eq. cbn [scores].
    rewrite store_scores_lookup, Hsc. cbn.
    rewrite decide_True; [done|]. apply elem_of_seq. lia. }
  eexists. split; [by apply Hgen|].
  rewrite (foldl_insert_lookup (λ i, compute_score r i)).
  rewrite decide_True; [done|]. split; [|done]. apply elem_of_seq. lia.
Qed.

(** The running best score is the initial one or a score already seen. *)
Lemma running_best_score_seen i rs st :
  let st' := foldl (λ st r, update st r (compute_score r i)) st rs in
  best_score st' = best_score st
  ∨ ∃ r, r ∈ rs ∧ best_score st' = compute_score r i.
Proof.
  revert st. induction rs as [|r rs IH]; intros st; cbn zeta; [by left|].
  cbn [foldl]. destruct (IH (update st r (compute_score r i))) as [Heq|[r' [Hr' Heq]]].
  - cbn zeta in Heq. rewrite Heq. unfold update.
    destruct (f_gt _ (best_score st)); cbn.
    + right. exists r. split; [left|done].
    + destruct (f_gt _ (next_best st)); by left.
  - right. exists r'. split; [by right|done].
Qed.

(** A score that does not exceed the running best leaves it in place. *)
Lemma running_best_kept i rs st :
  (∀ r, r ∈ rs → f_gt (compute_score r i) (best_score st) = false) →
  let st' := foldl (λ st r, update st r (compute_score r i)) st rs in
  best_score st' = best_score st ∧ best_ref st' = best_ref st.
Proof.
  revert st. induction rs as [|r rs IH]; intros st Hle; cbn zeta; [done|].
  cbn [foldl].
  assert (Hst : best_score (update st r (compute_score r i)) = best_score st
                ∧ best_ref (update st r (compute_score r i)) = best_ref st).
  { unfold update. rewrite (Hle r) by left.
    by destruct (f_gt _ (next_best st)). }
  destruct Hst as [Hs Hr].
  destruct (IH (update st r (compute_score r i))) as [Hs' Hr'].
  { intros r' Hr'. rewrite Hs. apply Hle. by right. }
  cbn zeta in Hs', Hr'. by rewrite Hs', Hr'.
Qed.

Lemma running_first_best i r1 :
  (r1 < nref)%nat →
  f_gt (compute_score r1 i) (f_of_int (-1000)) = true →
  (∀ r, (r < r1)%nat → f_gt (compute_score r1 i) (compute_score r i) = true) →
  (∀ r, (r1 < r < nref)%nat →
        f_gt (compute_score r i) (compute_score r1 i) = false) →
  best_ref (running i) = r1 ∧ best_score (running i) = compute_score r1 i.
Proof.
  intros Hr1 Hinit Hbefore Hafter. unfold running_of.
  replace nref with (r1 + S (nref - S r1))%nat by lia.
  rewrite seq_app, foldl_app. cbn [seq foldl]. rewrite Nat.add_0_l.
  set (st := foldl _ init_running (seq 0 r1)).
  assert (Hgt : f_gt (compute_score r1 i) (best_score st) = true).
  { destruct (running_best_score_seen i (seq 0 r1) init_running)
      as [Heq|[r [Hr Heq]]]; cbn zeta in Heq; fold st in Heq; rewrite Heq.
    - exact Hinit.
    - apply Hbefore. apply elem_of_seq in Hr. lia. }
  assert (Hupd : update st r1 (compute_score r1 i)
                 = {| best_score := compute_score r1 i;
                      next_best := best_score st; best_ref := r1 |}).
  { unfold update. by rewrite Hgt. }
  rewrite Hupd.
  destruct (running_best_kept i (seq (S r1) (nref - S r1))
              {| best_score := compute_score r1 i;
                 next_best := best_score st; best_ref := r1 |}) as [Hs Hr].
  { intros r Hr. cbn. apply Hafter. apply elem_of_seq in Hr. lia. }
  cbn zeta in Hs, Hr. by rewrite Hs, Hr.
Qed.

(** When [>] is a strict weak order on the values at hand (a set [V] that
    holds the initial value and the scores of cell [i]) and every score
    exceeds the initial value, the running best is the largest score and the
    running second-best is the largest score of the other references. *)
Section ordered_scores.
Variable i : nat.
Variable V : Float_ → Prop.
Hypothesis V_init : V (f_of_int (-1000)).
Hypothesis V_score : ∀ r, (r < nref)%nat → V (compute_score r i).
Hypothesis gt_irrefl : ∀ x, V x → f_gt x x = false.
Hypothesis gt_asym : ∀ x y, V x → V y → f_gt x y = true → f_gt y x = false.
Hypothesis le_trans : ∀ x y z, V x → V y → V z →
  f_gt x y = false → f_gt y z = false → f_gt x z = false.
Hypothesis above_init : ∀ r, (r < nref)%nat →
  f_gt (compute_score r i) (f_of_int (-1000)) = true.

Lemma running_prefix_top_two n :
  (n ≤ nref)%nat →
  let st := foldl (λ st r, update st r (compute_score r i)) init_running
              (seq 0 n) in
  V (best_score st) ∧ V (next_best st)
  ∧ f_gt (next_best st) (best_score st) = false
  ∧ (∀ r, (r < n)%nat → f_gt (compute_score r i) (best_score st) = false)
  ∧ (∀ r, (r < n)%nat → r ≠ best_ref st →
          f_gt (compute_score r i) (next_best st) = false)
  ∧ (n = 0%nat → st = init_running)
  ∧ ((0 < n)%nat →
     (best_ref st < n)%nat ∧ best_score st = compute_score (best_ref st) i)
  ∧ (((n ≤ 1)%nat ∧ next_best st = f_of_int (-1000))
     ∨ ∃ r2, (r2 < n)%nat ∧ r2 ≠ best_ref st
             ∧ next_best st = compute_score r2 i).
Proof.
  induction n as [|n IH]; intros Hn; cbn zeta.
  - cbn. split; [done|]. split; [done|]. split; [by apply gt_irrefl|].
    split; [intros; lia|]. split; [intros; lia|]. split; [done|].
    split; [intros; lia|]. left. split; [lia|done].
  - rewrite seq_S, foldl_app. cbn [foldl Nat.add].
    destruct IH as (Vb & Vn & Hnb & Hmax & Hsnd & Hzero & Hpos & Hrun); [lia|].
    set (st := foldl _ init_running (seq 0 n)) in *.
    set (s := compute_score n i).
    assert (Vs : V s) by (apply V_score; lia).
    assert (Hs_init : f_gt s (f_of_int (-1000)) = true) by (apply above_init; lia).
    unfold update.
    destruct (f_gt s (best_score st)) eqn:Hgt;
      [|destruct (f_gt s (next_best st)) eqn:Hgt2];
      cbn [best_score next_best best_ref].
    + assert (Hle : f_gt (best_score st) s = false) by (by apply gt_asym).
      split; [done|]. split; [done|]. split; [done|]. split.
      { intros r Hr. destruct (decide (r = n)) as [->|]; [by apply gt_irrefl|].
        apply (le_trans _ (best_score st)); [apply V_score; lia|done..| |done].
        apply Hmax. lia. }
      split; [intros r Hr Hne; apply Hmax; lia|].
      split; [lia|]. split; [intros _; split; [lia|done]|].
      destruct (decide (n = 0%nat)) as [->|Hn0].
      * left. split; [lia|]. by rewrite (Hzero eq_refl).
      * right. destruct Hpos as [Hlt Heq]; [lia|].
        exists (best_ref st). split; [lia|]. split; [lia|done].
    + assert (Hn0 : (0 < n)%nat).
      { destruct n; [|lia]. rewrite (Hzero eq_refl) in Hgt. cbn in Hgt.
        congruence. }
      destruct Hpos as [Hlt Heq]; [done|].
      split; [done|]. split; [done|]. split; [done|]. split.
      { intros r Hr. destruct (decide (r = n)) as [->|]; [done|].
        apply Hmax. lia. }
      split.
      { intros r Hr Hne.
        destruct (decide (r = n)) as [->|]; [by apply gt_irrefl|].
        apply (le_trans _ (next_best st)); [apply V_score; lia|done..| |].
        - apply Hsnd; [lia|done].
        - by apply gt_asym. }
      split; [lia|]. split; [intros _; split; [lia|done]|].
      right. exists n. split; [lia|]. split; [lia|done].
    + assert (Hn0 : (0 < n)%nat).
      { destruct n; [|lia]. rewrite (Hzero eq_refl) in Hgt. cbn in Hgt.
        congruence. }
      destruct Hpos as [Hlt Heq]; [done|].
      split; [done|]. split; [done|]. split; [done|]. split.
      { intros r Hr. destruct (decide (r = n)) as [->|]; [done|].
        apply Hmax. lia. }
      split.
      { intros r Hr Hne. destruct (decide (r = n)) as [->|]; [done|].
        apply Hsnd; [lia|done]. }
      split; [lia|]. split; [intros _; split; [lia|done]|].
      destruct Hrun as [[_ Hinit]|(r2 & Hr2 & Hne & Heq2)].
      * rewrite Hinit in Hgt2. congruence.
      * right. exists r2. split; [lia|done].
Qed.

Lemma running_top_two :
  (1 < nref)%nat →
  ∃ r1 r2,
    (r1 < nref)%nat ∧ (r2 < nref)%nat ∧ r1 ≠ r2
    ∧ best_ref (running i) = r1
    ∧ best_score (running i) = compute_score r1 i
    ∧ next_best (running i) = compute_score r2 i
    ∧ (∀ r, (r < nref)%nat →
            f_gt (compute_score r i) (compute_score r1 i) = false)
    ∧ (∀ r, (r < nref)%nat → r ≠ r1 →
            f_gt (compute_score r i) (compute_score r2 i) = false).
Proof.
  intros Hn.
  destruct (running_prefix_top_two nref)
    as (_ & _ & _ & Hmax & Hsnd & _ & Hpos & Hrun); [done|].
  fold (running i) in *.
  destruct Hpos as [Hlt Heq]; [lia|].
  destruct Hrun as [[? _]|(r2 & Hr2 & Hne & Heq2)]; [lia|].
  exists (best_ref (running i)), r2.
  rewrite <- Heq, <- Heq2. done.
Qed.

End ordered_scores.

(** C3. The reference recorded for a cell is the first one that attains
    the best score. Let reference [r1] beat the initial value and every
    earlier reference under [>], and let every later reference either have
    exactly the score of [r1] or not exceed it. Then every worker whose range
    contains the cell writes [r1] into [best]: a later tie does not replace
    it. The running best changes only when [score > best_score]; failing
    that, the running second-best changes only when [score > next_best]. *)
Theorem classify_integrated_first_best_wins i r1 :
  (r1 < nref)%nat →
  f_gt (compute_score r1 i) (f_of_int (-1000)) = true →
  f_gt (compute_score r1 i) (compute_score r1 i) = false →
  (∀ r, (r < r1)%nat → f_gt (compute_score r1 i) (compute_score r i) = true) →
  (∀ r, (r1 < r < nref)%nat →
        compute_score r i = compute_score r1 i
        ∨ f_gt (compute_score r i) (compute_score r1 i) = false) →
  (∀ start len buffers b,
     best buffers = Some b → (start ≤ i < start + len)%nat → (i < length b)%nat →
     ∃ b', best (classify_range nref compute_score start len buffers) = Some b'
           ∧ b' !! i = Some r1)
  ∧ (∀ st r score,
       f_gt score (best_score st) = false →
       best_score (update st r score) = best_score st
       ∧ best_ref (update st r score) = best_ref st)
  ∧ (∀ st r score,
       f_gt score (best_score st) = false →
       f_gt score (next_best st) = false →
       update st r score = st).
Proof.
  intros Hr1 Hinit Hirrefl Hbefore Hafter.
  assert (Hafter' : ∀ r, (r1 < r < nref)%nat →
                         f_gt (compute_score r i) (compute_score r1 i) = false).
  { intros r Hr. destruct (Hafter r Hr) as [->|Hle]; done. }
  split; [|split].
  - intros start len buffers b Hb Hi Hlen.
    destruct (classify_range_best_at start len buffers b i Hb Hi Hlen)
      as [b' [Hb' Hlook]].
    exists b'. split; [done|].
    by rewrite Hlook, (proj1 (running_first_best i r1 Hr1 Hinit Hbefore Hafter')).
  - intros st r score Hle. unfold update. rewrite Hle.
    by destruct (f_gt score (next_best st)).
  - intros st r score Hle Hle'. unfold update. by rewrite Hle, Hle'.
Qed.

(** C6. With one reference every cell of a non-null [delta] receives the
    NaN, whatever the scores are. With more than one reference it receives
    the running best minus the running second-best; when [>] is a strict
    weak order on the scores of the cell and they all exceed the initial
    [-1000], that is the score of the best reference minus the largest score
    among the other references. *)
Theorem classify_integrated_delta start len buffers d i :
  delta buffers = Some d → (start ≤ i < start + len)%nat → (i < length d)%nat →
  ∃ d', delta (classify_range nref compute_score start len buffers) = Some d'
    ∧ (nref = 1%nat → d' !! i = Some f_nan)
    ∧ ((1 < nref)%nat →
       d' !! i = Some (f_sub (best_score (running_of nref compute_score i))
                             (next_best (running_of nref compute_score i)))
       ∧ ∀ V : Float_ → Prop,
           V (f_of_int (-1000)) →
           (∀ r, (r < nref)%nat → V (compute_score r i)) →
           (∀ x, V x → f_gt x x = false) →
           (∀ x y, V x → V y → f_gt x y = true → f_gt y x = false) →
           (∀ x y z, V x → V y → V z →
                     f_gt x y = false → f_gt y z = false → f_gt x z = false) →
           (∀ r, (r < nref)%nat →
                 f_gt (compute_score r i) (f_of_int (-1000)) = true) →
           ∃ r1 r2,
             (r1 < nref)%nat ∧ (r2 < nref)%nat ∧ r1 ≠ r2
             ∧ d' !! i = Some (f_sub (compute_score r1 i) (compute_score r2 i))
             ∧ (∀ r, (r < nref)%nat →
                     f_gt (compute_score r i) (compute_score r1 i) = false)
             ∧ (∀ r, (r < nref)%nat → r ≠ r1 →
                     f_gt (compute_score r i) (compute_score r2 i) = false)).
Proof.
  intros Hd Hi Hlen.
  destruct (classify_range_delta_at start len buffers d i Hd Hi Hlen)
    as [d' [Hd' Hlook]].
  exists d'. split; [done|]. unfold delta_of in Hlook. split; intros Hn.
  - by rewrite decide_False in Hlook by lia.
  - rewrite decide_True in Hlook by lia. split; [done|].
    intros V V_init V_score Hirrefl Hasym Htrans Habove.
    destruct (running_top_two i V V_init V_score Hirrefl Hasym Htrans Habove Hn)
      as (r1 & r2 & Hr1 & Hr2 & Hne & _ & Hbest & Hnext & Hmax & Hsnd).
    rewrite Hbest, Hnext in Hlook. by exists r1, r2.
Qed.

End classify_integrated_facts.

Lemma classify_integrated_first_best_wins_witness :
  ∃ b', best (classify_range 3 example_scores 0 2 example_buffers) = Some b'
        ∧ b' !! 0%nat = Some 1%nat.
Proof.
  refine (proj1 (classify_integrated_first_best_wins 3 example_scores 0 1
                   _ _ _ _ _) 0%nat 2%nat example_buffers [7; 7]%nat _ _ _).
  - lia.
  - reflexivity.
  - reflexivity.
  - intros r Hr. assert (r = 0%nat) as -> by lia. reflexivity.
  - intros r Hr. assert (r = 2%nat) as -> by lia. left. reflexivity.
  - reflexivity.
  - lia.
  - simpl. lia.
Defined.

Lemma classify_integrated_delta_witness :
  (∃ d', delta (classify_range 1 example_scores 0 2 example_buffers) = Some d'
         ∧ d' !! 1%nat = Some (f_nan : float))
  ∧ (∃ d' r1 r2,
       delta (classify_range 3 example_scores 0 2 example_buffers) = Some d'
       ∧ r1 ≠ r2
       ∧ d' !! 0%nat = Some (f_sub (example_scores r1 0) (example_scores r2 0))).
Proof.
  split.
  - destruct (classify_integrated_delta 1 example_scores 0 2 example_buffers
                [0; 0]%float 1 eq_refl ltac:(lia) ltac:(simpl; lia))
      as [d' [Hrun [Hone _]]].
    exists d'. split; [exact Hrun|]. exact (Hone eq_refl).
  - destruct (classify_integrated_delta 3 example_scores 0 2 example_buffers
                [0; 0]%float 0 eq_refl ltac:(lia) ltac:(simpl; lia))
      as [d' [Hrun [_ Hmany]]].
    destruct (Hmany ltac:(lia)) as [_ Hsem].
    destruct (Hsem (λ x, x ∈ [(-1000)%float; 0.5%float; 0.75%float]))
      as (r1 & r2 & _ & _ & Hne & Hlook & _).
    + left.
    + intros r Hr. destruct r as [|[|[|r]]]; [| | |lia]; cbn;
        repeat ((left; reflexivity) || right).
    + intros x Hx.
      repeat (apply elem_of_cons in Hx as [->|Hx]); [..|by inversion Hx];
        reflexivity.
    + intros x y Hx Hy.
      repeat (apply elem_of_cons in Hx as [->|Hx]); [..|by inversion Hx];
        (repeat (apply elem_of_cons in Hy as [->|Hy]); [..|by inversion Hy]);
        vm_compute; congruence.
    + intros x y z Hx Hy Hz.
      repeat (apply elem_of_cons in Hx as [->|Hx]); [..|by inversion Hx];
        (repeat (apply elem_of_cons in Hy as [->|Hy]); [..|by inversion Hy]);
        (repeat (apply elem_of_cons in Hz as [->|Hz]); [..|by inversion Hz]);
        vm_compute; congruence.
    + intros r Hr. destruct r as [|[|[|r]]]; [| | |lia]; reflexivity.
    + exists d', r1, r2. split; [exact Hrun|]. split; [exact Hne|exact Hlook].
Defined.

(** * The design document's properties of the intersection *)

(** C1. On test ids [A, A, B] and reference ids [A, B], [intersect_features]
    pairs the second [A] of the test dataset, not the first: a later
    duplicate overwrites the row recorded for its id. [intersect_genes]
    returns the pairs of the first rows. *)
Theorem intersect_features_pairs_last_rows :
  intersect_features ["A"; "A"; "B"]%string ["A"; "B"]%string
  = [(1, 0); (2, 1)]
  ∧ intersect_features ["A"]%string ["A"; "A"]%string = [(0, 1)]
  ∧ Genes.intersect_genes ["A"; "A"; "B"]%string ["A"; "B"]%string
    = [(0, 0); (2, 1)]%nat
  ∧ Genes.intersect_genes ["A"]%string ["A"; "A"]%string = [(0, 0)]%nat.
Proof. repeat split; vm_compute; reflexivity. Qed.

(** C7. The pairs come out in strictly increasing order of test row, no
    test row and no reference row occurs twice, and datasets without a common
    id give the empty intersection. For [intersect_features], whose rows are
    stored as [int], this is for datasets of at most [INT_MAX + 1] rows. *)
Theorem intersection_rows_sorted_and_unique
    {Id : Type} `{Countable Id} (test_id ref_id : list Id) :
  (StronglySorted lt (fst <$> Genes.intersect_genes test_id ref_id)
   ∧ NoDup (fst <$> Genes.intersect_genes test_id ref_id)
   ∧ NoDup (snd <$> Genes.intersect_genes test_id ref_id)
   ∧ ((∀ x, x ∈ test_id → x ∉ ref_id) →
      Genes.intersect_genes test_id ref_id = []))
  ∧ (Z.of_nat (length test_id) ≤ INT_MAX + 1 →
     Z.of_nat (length ref_id) ≤ INT_MAX + 1 →
     StronglySorted Z.lt (fst <$> intersect_features test_id ref_id)
     ∧ NoDup (fst <$> intersect_features test_id ref_id)
     ∧ NoDup (snd <$> intersect_features test_id ref_id))
  ∧ ((∀ x, x ∈ test_id → x ∉ ref_id) →
     intersect_features test_id ref_id = []).
Proof.
  split; [|split].
  - split; [apply intersect_genes_sorted|].
    split; [apply intersect_genes_NoDup_fst|].
    split; [apply intersect_genes_NoDup_snd|apply intersect_genes_disjoint].
  - apply intersect_features_sorted.
  - apply intersect_features_disjoint.
Qed.

Lemma intersection_rows_sorted_and_unique_witness :
  (StronglySorted Z.lt
     (fst <$> intersect_features ["A"; "A"; "B"]%string ["A"; "B"]%string)
   ∧ NoDup (fst <$> intersect_features ["A"; "A"; "B"]%string ["A"; "B"]%string)
   ∧ NoDup (snd <$> intersect_features ["A"; "A"; "B"]%string ["A"; "B"]%string))
  ∧ Genes.intersect_genes ["A"; "C"]%string ["B"]%string = []
  ∧ intersect_features ["A"; "C"]%string ["B"]%string = [].
Proof.
  split; [|split].
  - apply (intersection_rows_sorted_and_unique
             ["A"; "A"; "B"]%string ["A"; "B"]%string);
      unfold INT_MAX; simpl; lia.
  - apply (intersection_rows_sorted_and_unique ["A"; "C"]%string ["B"]%string).
    intros x Hx Hb. apply list_elem_of_singleton in Hb as ->.
    by repeat (apply elem_of_cons in Hx as [Hx|Hx]; [done|]); inversion Hx.
  - apply (intersection_rows_sorted_and_unique ["A"; "C"]%string ["B"]%string).
    intros x Hx Hb. apply list_elem_of_singleton in Hb as ->.
    by repeat (apply elem_of_cons in Hx as [Hx|Hx]; [done|]); inversion Hx.
Defined.

(** * The design document's properties of the marker reindexer *)

(** C5. The first pass of the overload with an intersection is a filtered
    top-k: at every off-diagonal entry it leaves the first [top] genes, in
    their order, among those that are the reference row of some pair of the
    intersection. On the markers [[_, [5,7,9]], [[2,3], _]] with the
    reference rows 2, 5 and 7 and [top = 2], the entry for 0 -> 1 becomes
    [5, 7]. *)
Theorem filter_markers_filtered_top_k intersection markers top :
  0 ≤ top ≤ INT_MAX →
  (∃ markers1 all_markers,
     filter_markers intersection markers top = Ok (markers1, all_markers)
     ∧ ∀ i j current,
         i ≠ j → entry markers i j = Some current →
         entry markers1 i j
         = Some (take (Z.to_nat top)
                   (filter (λ g, g ∈ snd <$> intersection) current)))
  ∧ (∃ all_markers,
       filter_markers [(0, 2); (1, 5); (2, 7)] [[[]; [5; 7; 9]]; [[2; 3]; []]] 2
       = Ok ([[[]; [5; 7]]; [[2]; []]], all_markers)).
Proof.
  intros Htop. split.
  - eexists _, _. split; [apply filter_markers_total, reserve_small, Htop|].
    intros i j current Hne Hij. rewrite map_markers_entry, Hij. cbn.
    rewrite decide_False by done. by rewrite filtered_top_small.
  - eexists. by rewrite filter_markers_total.
Qed.

Lemma filter_markers_filtered_top_k_witness :
  ∃ markers1 all_markers,
    filter_markers [(0, 2); (1, 5); (2, 7)] [[[]; [5; 7; 9]]; [[2; 3]; []]] 2
    = Ok (markers1, all_markers)
    ∧ entry markers1 0 1 = Some [5; 7].
Proof.
  destruct (proj1 (filter_markers_filtered_top_k
                     [(0, 2); (1, 5); (2, 7)] [[[]; [5; 7; 9]]; [[2; 3]; []]] 2
                     ltac:(unfold INT_MAX; lia)))
    as [markers1 [all_markers [Hrun Hentry]]].
  exists markers1, all_markers. split; [exact Hrun|].
  exact (Hentry 0%nat 1%nat [5; 7; 9] ltac:(lia) eq_refl).
Defined.

(** C4, as the design document states it, fails: the compaction keeps the
    pairs as they are, so their second components stay reference rows. *)
Lemma subset_markers_compact_space_counterexample :
  ¬ (∀ intersection markers top intersection' markers',
       subset_markers intersection markers top = Ok (intersection', markers') →
       in_compact_space intersection' markers').
Proof.
  intros Hclaim.
  destruct (Hclaim [(0, 5); (1, 7)] [[[]; [5; 7]]; [[7]; []]] 2
              [(0, 5); (1, 7)] [[[]; [0; 1]]; [[1]; []]]) as [_ Hsnd].
  - vm_compute. reflexivity.
  - specialize (Hsnd (0, 5)). cbn in Hsnd.
    assert (0 ≤ 5 < 2) as [_ Hlt]; [|lia]. apply Hsnd. left.
Qed.

(** C4, amended. After [subset_markers] the surviving intersection is the
    sub-sequence of the pairs whose reference row is a kept marker, unchanged;
    every index in an off-diagonal marker list lies in [0..k-1], [k] the
    number of surviving pairs, and is the position of a surviving pair whose
    reference row is the gene the index replaces. *)
Theorem subset_markers_marker_positions intersection markers top :
  0 ≤ top ≤ INT_MAX →
  Z.of_nat (length intersection) ≤ INT_MAX + 1 →
  ∃ intersection' markers',
    subset_markers intersection markers top = Ok (intersection', markers')
    ∧ intersection' `sublist_of` intersection
    ∧ ∀ i j current,
        i ≠ j → entry markers i j = Some current →
        ∃ current',
          entry markers' i j = Some current'
          ∧ Forall2 (λ g m, 0 ≤ m < Z.of_nat (length intersection')
                            ∧ snd <$> intersection' !! Z.to_nat m = Some g)
              (take (Z.to_nat top)
                 (filter (λ g, g ∈ snd <$> intersection) current))
              current'.
Proof.
  intros Htop Hfits. eexists _, _.
  split; [apply subset_markers_total, reserve_small, Htop|].
  split; [apply sublist_filter|].
  intros i j current Hne Hij. eexists.
  rewrite map_markers_twice_entry, Hij. cbn. rewrite decide_False by done.
  split; [done|]. rewrite <- filtered_top_small by done.
  unfold renumber. apply Forall2_fmap_r, Forall_Forall2_diag, Forall_forall.
  intros g Hg. apply (new_index_position _ _ _ current g); [done| |done].
  apply markers_entries_entry. eauto.
Qed.

Lemma subset_markers_marker_positions_witness :
  ∃ intersection' markers',
    subset_markers [(0, 5); (1, 7); (2, 8)] [[[]; [5; 7; 9]]; [[7; 3]; [6]]] 2
    = Ok (intersection', markers')
    ∧ intersection' `sublist_of` [(0, 5); (1, 7); (2, 8)]
    ∧ ∃ current',
        entry markers' 0 1 = Some current'
        ∧ Forall2 (λ g m, 0 ≤ m < Z.of_nat (length intersection')
                          ∧ snd <$> intersection' !! Z.to_nat m = Some g)
            [5; 7] current'.
Proof.
  destruct (subset_markers_marker_positions
              [(0, 5); (1, 7); (2, 8)] [[[]; [5; 7; 9]]; [[7; 3]; [6]]] 2
              ltac:(unfold INT_MAX; lia) ltac:(unfold INT_MAX; simpl; lia))
    as [intersection' [markers' [Hrun [Hsub Hentry]]]].
  exists intersection', markers'. split; [exact Hrun|]. split; [exact Hsub|].
  exact (Hentry 0%nat 1%nat [5; 7; 9] ltac:(lia) eq_refl).
Defined.

(** C10. In the second pass of the overload with an intersection every
    lookup in the mapping succeeds: a gene that the first pass left in an
    off-diagonal entry was inserted into [all_markers] and is the reference
    row of some pair, hence is a key of the mapping that the compaction
    builds. The call therefore never dereferences a past-the-end iterator. *)
Theorem subset_markers_lookup_succeeds intersection markers top :
  (∀ markers1 all_markers i j current g,
     filter_markers intersection markers top = Ok (markers1, all_markers) →
     i ≠ j → entry markers1 i j = Some current → g ∈ current →
     g ∈ all_markers
     ∧ g ∈ snd <$> intersection
     ∧ is_Some ((compact_intersection all_markers intersection).2 !! g))
  ∧ subset_markers intersection markers top ≠ EndDeref.
Proof.
  split; [|apply subset_markers_not_EndDeref].
  intros markers1 all_markers i j current g Hfirst Hne Hij Hg.
  apply filter_markers_returned in Hfirst as [-> ->].
  rewrite compact_intersection_spec. cbn zeta. cbn [snd].
  rewrite map_markers_entry in Hij.
  destruct (entry markers i j) as [current0|] eqn:Hij0; [|done].
  cbn in Hij. rewrite decide_False in Hij by done. inversion Hij; subst.
  apply (kept_is_indexed _ _ _ current0 g); [|done].
  apply markers_entries_entry. eauto.
Qed.

Lemma subset_markers_lookup_succeeds_witness :
  5 ∈ ({[2; 5; 7]} : gset Z)
  ∧ 5 ∈ snd <$> [(0, 2); (1, 5); (2, 7)]
  ∧ is_Some ((compact_intersection {[2; 5; 7]} [(0, 2); (1, 5); (2, 7)]).2 !! 5).
Proof.
  apply (proj1 (subset_markers_lookup_succeeds
                  [(0, 2); (1, 5); (2, 7)] [[[]; [5; 7; 9]]; [[2; 3]; []]] 2)
           [[[]; [5; 7]]; [[2]; []]] {[2; 5; 7]} 0%nat 1%nat [5; 7] 5).
  - vm_compute. reflexivity.
  - lia.
  - reflexivity.
  - left.
Defined.

(** C8. The overload for identical feature spaces filters nothing: every
    off-diagonal entry is cut down to its first [min(top, length)] genes,
    and each index that replaces a gene is the position of that gene in the
    returned subset, which is sorted. The positions are stored as [int], so
    this is for a subset of at most [INT_MAX + 1] genes. *)
Theorem subset_markers_all_truncates markers top :
  0 ≤ top ≤ INT_MAX →
  ∃ subset markers',
    subset_markers_all markers top = Ok (subset, markers')
    ∧ StronglySorted Z.le subset
    ∧ (Z.of_nat (length subset) ≤ INT_MAX + 1 →
       ∀ i j current,
         i ≠ j → entry markers i j = Some current →
         ∃ current',
           entry markers' i j = Some current'
           ∧ Forall2 (λ g m, 0 ≤ m ∧ subset !! Z.to_nat m = Some g)
               (take (Z.to_nat (Z.min top (Z.of_nat (length current)))) current)
               current').
Proof.
  intros Htop. eexists _, _. split; [apply subset_markers_all_spec|].
  split; [apply sorted_subset_sorted|].
  intros Hfits i j current Hne Hij. eexists.
  rewrite map_markers_twice_entry, Hij. cbn. rewrite decide_False by done.
  split; [done|]. rewrite <- truncate_small by done.
  unfold renumber. apply Forall2_fmap_r, Forall_Forall2_diag, Forall_forall.
  intros g Hg.
  destruct (subset_index_position markers top current g) as [[Hm _] Hlook];
    [done| |done|done].
  apply markers_entries_entry. eauto.
Qed.

Lemma subset_markers_all_truncates_witness :
  ∃ subset markers',
    subset_markers_all [[[1]; [5; 7; 9]]; [[7; 3]; [77]]] 2
    = Ok (subset, markers')
    ∧ ∃ current',
        entry markers' 0 1 = Some current'
        ∧ Forall2 (λ g m, 0 ≤ m ∧ subset !! Z.to_nat m = Some g) [5; 7] current'.
Proof.
  destruct (subset_markers_all_truncates [[[1]; [5; 7; 9]]; [[7; 3]; [77]]] 2
              ltac:(unfold INT_MAX; lia))
    as [subset [markers' [Hrun [_ Hentry]]]].
  exists subset, markers'. split; [exact Hrun|].
  apply (Hentry ltac:(rewrite subset_markers_all_spec in Hrun;
                      injection Hrun as <- _; vm_compute; discriminate)
           0%nat 1%nat [5; 7; 9] ltac:(lia) eq_refl).
Defined.

(** C9. Both overloads leave every diagonal entry as it was, and the
    diagonal adds nothing to the sets they gather: a gene is in
    [all_markers] (overload with an intersection), or in the returned subset
    (overload for identical feature spaces), exactly when some off-diagonal
    entry keeps it. *)
Theorem subset_markers_diagonal_untouched intersection markers top i :
  (0 ≤ top ≤ INT_MAX →
   ∃ intersection' markers' markers1 all_markers,
     subset_markers intersection markers top = Ok (intersection', markers')
     ∧ filter_markers intersection markers top = Ok (markers1, all_markers)
     ∧ entry markers' i i = entry markers i i
     ∧ entry markers1 i i = entry markers i i
     ∧ ∀ g, g ∈ all_markers
            ↔ ∃ i j current,
                i ≠ j ∧ entry markers i j = Some current
                ∧ g ∈ filtered_top (available_of intersection) top current)
  ∧ (∃ subset markers',
       subset_markers_all markers top = Ok (subset, markers')
       ∧ entry markers' i i = entry markers i i
       ∧ ∀ g, g ∈ subset
              ↔ ∃ i j current,
                  i ≠ j ∧ entry markers i j = Some current
                  ∧ g ∈ truncate top current).
Proof.
  assert (Hdiag : ∀ f1 f2,
            entry (map_markers f2 0 (map_markers f1 0 markers)) i i
            = entry markers i i).
  { intros f1 f2. rewrite map_markers_twice_entry.
    destruct (entry markers i i); [|done]. cbn. by rewrite decide_True. }
  assert (Hgathered : ∀ f g,
            g ∈ gathered f markers
            ↔ ∃ i j current,
                i ≠ j ∧ entry markers i j = Some current ∧ g ∈ f current).
  { intros f g. unfold gathered. rewrite gathered_elem.
    setoid_rewrite markers_entries_entry. split.
    - intros [Hg|[current [[i' [j [Hne Hij]]] Hg]]]; [by inversion Hg|].
      by exists i', j, current.
    - intros [i' [j [current [Hne [Hij Hg]]]]]. right. exists current.
      split; [|done]. by exists i', j. }
  split.
  - intros Htop. eexists _, _, _, _.
    split; [apply subset_markers_total, reserve_small, Htop|].
    split; [apply filter_markers_total, reserve_small, Htop|].
    split; [apply Hdiag|]. split; [|apply Hgathered].
    rewrite map_markers_entry. destruct (entry markers i i); [|done].
    cbn. by rewrite decide_True.
  - eexists _, _. split; [apply subset_markers_all_spec|].
    split; [apply Hdiag|]. intros g.
    by rewrite sorted_subset_elem, Hgathered.
Qed.

Lemma subset_markers_diagonal_untouched_witness :
  ∃ intersection' markers',
    subset_markers [(0, 5); (1, 7)] [[[5]; [5; 7; 9]]; [[7; 3]; [77]]] 2
    = Ok (intersection', markers')
    ∧ entry markers' 1 1 = Some [77].
Proof.
  destruct (proj1 (subset_markers_diagonal_untouched
                     [(0, 5); (1, 7)] [[[5]; [5; 7; 9]]; [[7; 3]; [77]]] 2 1%nat)
              ltac:(unfold INT_MAX; lia))
    as [intersection' [markers' [_ [_ [Hrun [_ [Hdiag _]]]]]]].
  exists intersection', markers'. split; [exact Hrun|]. exact Hdiag.
Defined.

(** * Further properties of the intersection *)

Lemma StronglySorted_fmap_inv {A B} (f : A → B) (R : relation B) (l : list A) :
  StronglySorted R (f <$> l) → StronglySorted (λ x y, R (f x) (f y)) l.
Proof.
  induction l as [|x l IH]; intros Hs; [constructor|].
  rewrite fmap_cons in Hs. apply StronglySorted_inv in Hs as [Hs Hall].
  constructor; [by apply IH|].
  apply Forall_forall. intros y Hy.
  apply (proj1 (Forall_forall _ _) Hall). apply list_elem_of_fmap. eauto.
Qed.

(** Two lists of pairs with strictly increasing first components and the
    same elements are equal. *)
Lemma sorted_fst_unique {B} (l1 l2 : list (nat * B)) :
  StronglySorted lt (fst <$> l1) → StronglySorted lt (fst <$> l2) →
  (∀ p, p ∈ l1 ↔ p ∈ l2) → l1 = l2.
Proof.
  intros Hs1 Hs2 Helem.
  apply (StronglySorted_unique_strong (λ p q : nat * B, (p.1 < q.1)%nat)).
  - intros p q _ _ Hpq Hqp. lia.
  - by apply StronglySorted_fmap_inv.
  - by apply StronglySorted_fmap_inv.
  - apply NoDup_Permutation; [| |done].
    + eapply NoDup_fmap_1, StronglySorted_lt_NoDup, Hs1.
    + eapply NoDup_fmap_1, StronglySorted_lt_NoDup, Hs2.
Qed.

Lemma seq_sorted k n : StronglySorted lt (seq k n).
Proof.
  revert k. induction n as [|n IH]; intros k; cbn; constructor; [apply IH|].
  apply Forall_forall. intros j Hj%elem_of_seq. lia.
Qed.

Lemma fmap_diag_fst (l : list nat) : fst <$> ((λ i, (i, i)) <$> l) = l.
Proof. induction l as [|i l IH]; [done|]. cbn. by f_equal. Qed.

Section intersect_genes_more.
Context {Id_ : Type} `{Countable Id_}.
Implicit Types (test_id ref_id l : list Id_) (ref_found : gmap Id_ nat).

Import Genes.

Lemma index_refs_dom ref_id :
  dom (index_refs 0 ref_id ∅) = list_to_set ref_id.
Proof.
  apply set_eq. intros x. rewrite elem_of_dom, elem_of_list_to_set. split.
  - intros [j Hj]. apply index_refs_lookup in Hj as [Hj|[_ [p [_ [Hp _]]]]].
    + by rewrite lookup_empty in Hj.
    + by eapply list_elem_of_lookup_2.
  - intros Hx. destruct (first_at_exists _ _ Hx) as [p Hp]. exists (0 + p)%nat.
    apply index_refs_lookup. right. split; [apply lookup_empty|eauto].
Qed.

Lemma match_tests_length i0 test_id ref_found output :
  length (match_tests i0 test_id ref_found output)
  = (length output + size (dom ref_found ∩ list_to_set test_id))%nat.
Proof.
  revert i0 ref_found output.
  induction test_id as [|c rest IH]; intros i0 ref_found output.
  - cbn. rewrite (right_absorb_L (∅ : gset Id_) (∩)).
    rewrite (size_empty (C := gset Id_)). lia.
  - cbn [match_tests list_to_set]. destruct (ref_found !! c) as [j|] eqn:Hc.
    + rewrite IH, length_app, dom_delete_L. cbn [length].
      replace (dom ref_found ∩ ({[c]} ∪ list_to_set rest))
        with ({[c]} ∪ (dom ref_found ∖ {[c]}) ∩ list_to_set rest).
      * pose proof (size_union (C := gset Id_) {[c]}
                      ((dom ref_found ∖ {[c]}) ∩ list_to_set rest)) as Hsize.
        pose proof (size_singleton (C := gset Id_) c) as Hone.
        rewrite Hsize, Hone; [lia|]. intros x Hx Hx'.
        rewrite elem_of_singleton in Hx.
        rewrite elem_of_intersection, elem_of_difference, elem_of_singleton
          in Hx'. tauto.
      * apply set_eq. intros x.
        assert (c ∈ dom ref_found) by (by apply elem_of_dom).
        rewrite !elem_of_union, !elem_of_intersection, elem_of_union,
          elem_of_difference, !elem_of_singleton.
        destruct (decide (x = c)) as [->|]; tauto.
    + rewrite IH. do 2 f_equal. apply not_elem_of_dom in Hc.
      apply set_eq. intros x.
      rewrite !elem_of_intersection, elem_of_union, elem_of_singleton.
      split; [tauto|]. intros [Hdom [->|?]]; done.
Qed.

Lemma intersect_genes_NoDup test_id ref_id :
  NoDup (intersect_genes test_id ref_id).
Proof. eapply NoDup_fmap_1, intersect_genes_NoDup_fst. Qed.

(** X1. [intersect_genes] emits the pair [(a, b)] exactly when [a] is the
    first row of the test dataset that holds some id and [b] is the first
    row of the reference that holds the same id. *)
Theorem intersect_genes_pairs_first_rows test_id ref_id a b :
  (a, b) ∈ intersect_genes test_id ref_id
  ↔ ∃ x, first_at test_id a x ∧ first_at ref_id b x.
Proof. apply intersect_genes_elem. Qed.

(** X2. The number of pairs is the number of distinct ids that the two
    datasets share. *)
Theorem intersect_genes_length test_id ref_id :
  length (intersect_genes test_id ref_id)
  = size (list_to_set test_id ∩ list_to_set ref_id : gset Id_).
Proof.
  unfold intersect_genes. rewrite match_tests_length, index_refs_dom. cbn.
  f_equal. apply (comm_L (∩)).
Qed.

(** X3. Exchanging the two datasets exchanges the components of the pairs;
    only the order of the pairs can differ. *)
Theorem intersect_genes_swap test_id ref_id :
  intersect_genes ref_id test_id ≡ₚ prod_swap <$> intersect_genes test_id ref_id.
Proof.
  apply NoDup_Permutation.
  - apply intersect_genes_NoDup.
  - apply NoDup_fmap_2_strong; [|apply intersect_genes_NoDup].
    intros [a b] [a' b'] _ _ [= -> ->]. done.
  - intros [b a]. rewrite intersect_genes_elem, list_elem_of_fmap. split.
    + intros [x [Hb Ha]]. exists (a, b). split; [done|].
      apply intersect_genes_elem. eauto.
    + intros [[a' b'] [[= -> ->] Hin]].
      apply intersect_genes_elem in Hin as [x [Ha Hb]]. eauto.
Qed.

(** X4. A dataset without repeated ids intersected with itself gives the
    identity pairing of its rows. *)
Theorem intersect_genes_self l :
  NoDup l →
  intersect_genes l l = (λ i, (i, i)) <$> seq 0 (length l).
Proof.
  intros Hnd. apply sorted_fst_unique.
  - apply intersect_genes_sorted.
  - rewrite fmap_diag_fst. apply seq_sorted.
  - intros [a b]. rewrite intersect_genes_elem, list_elem_of_fmap. split.
    + intros [x [[Ha _] [Hb _]]]. exists a.
      assert (a = b) as <- by (eapply NoDup_lookup; eauto).
      split; [done|]. apply elem_of_seq. apply lookup_lt_Some in Ha. lia.
    + intros [i [[= -> ->] Hi%elem_of_seq]].
      destruct (lookup_lt_is_Some_2 l i) as [x Hx]; [lia|]. exists x.
      assert (Hfirst : first_at l i x).
      { split; [done|]. intros i' Hlt Hi'.
        pose proof (NoDup_lookup _ _ _ _ Hnd Hi' Hx). lia. }
      done.
Qed.

End intersect_genes_more.

Lemma intersect_genes_self_witness :
  Genes.intersect_genes ["B"; "A"; "C"]%string ["B"; "A"; "C"]%string
  = (λ i, (i, i)) <$> seq 0 3.
Proof.
  apply (intersect_genes_self ["B"; "A"; "C"]%string).
  repeat (constructor; [by intros Hin; repeat (apply elem_of_cons in Hin as [Hin|Hin]; [done|]); inversion Hin|]).
  constructor.
Defined.

Section intersect_features_more.
Context {Id : Type} `{Countable Id}.
Implicit Types (mat_id ref_id l : list Id).

Lemma NoDup_first_at l p x : NoDup l → l !! p = Some x → Genes.first_at l p x.
Proof.
  intros Hnd Hp. split; [done|]. intros i' Hlt Hi'.
  pose proof (NoDup_lookup _ _ _ _ Hnd Hi' Hp). lia.
Qed.

Lemma NoDup_last_at l p x : NoDup l → l !! p = Some x → last_at l p x.
Proof.
  intros Hnd Hp. split; [done|]. intros i' Hlt Hi'.
  pose proof (NoDup_lookup _ _ _ _ Hnd Hi' Hp). lia.
Qed.

(** X5. For datasets of at most [INT_MAX + 1] rows, [intersect_features]
    emits the pair [(a, b)] exactly when [a] is the last row of the test
    dataset that holds some id and [b] is the last row of the reference that
    holds the same id. *)
Theorem intersect_features_pairs_last_occurrences mat_id ref_id a b :
  Z.of_nat (length mat_id) ≤ INT_MAX + 1 →
  Z.of_nat (length ref_id) ≤ INT_MAX + 1 →
  (a, b) ∈ intersect_features mat_id ref_id
  ↔ ∃ x p q, last_at mat_id p x ∧ last_at ref_id q x
             ∧ a = Z.of_nat p ∧ b = Z.of_nat q.
Proof. intros Hm Hr. by apply intersect_features_elem. Qed.

(** X6. The result of [intersect_features] does not depend on the order in
    which the hash map is iterated: sorting the collected pairs in any order
    gives the same vector. *)
Theorem intersect_features_iteration_order mat_id ref_id (pairings : list (Z * Z)) :
  pairings ≡ₚ collect_pairings (mark_ref 0 ref_id (fill_mat 0 mat_id ∅)) →
  merge_sort pair_le pairings = intersect_features mat_id ref_id.
Proof.
  intros Hperm. unfold intersect_features.
  apply (Sorted_unique pair_le); [apply Sorted_merge_sort; apply _..|].
  by rewrite !merge_sort_Permutation.
Qed.

(** X7. On datasets without repeated ids (and of at most [INT_MAX + 1]
    rows) [intersect_features] and [intersect_genes] return the same
    pairs in the same order. *)
Theorem intersect_features_agrees_with_genes mat_id ref_id :
  NoDup mat_id → NoDup ref_id →
  Z.of_nat (length mat_id) ≤ INT_MAX + 1 →
  Z.of_nat (length ref_id) ≤ INT_MAX + 1 →
  intersect_features mat_id ref_id
  = (λ p, (Z.of_nat p.1, Z.of_nat p.2)) <$> Genes.intersect_genes mat_id ref_id.
Proof.
  intros Hmat Href Hm Hr.
  destruct (intersect_features_sorted mat_id ref_id Hm Hr) as (_ & Hfst & _).
  apply (StronglySorted_unique pair_le).
  - apply StronglySorted_merge_sort; apply _.
  - apply StronglySorted_fmap
      with (R1 := λ p q : nat * nat, (p.1 < q.1)%nat).
    + intros p q Hlt. left. cbn. lia.
    + apply StronglySorted_fmap_inv, intersect_genes_sorted.
  - apply NoDup_Permutation.
    + by eapply NoDup_fmap_1.
    + apply NoDup_fmap_2_strong; [|apply intersect_genes_NoDup].
      intros [a b] [a' b'] _ _ [= Ha Hb]. f_equal; lia.
    + intros [a b]. rewrite (intersect_features_elem _ _ Hm Hr).
      rewrite list_elem_of_fmap. split.
      * intros (x & p & q & [Hp _] & [Hq _] & -> & ->). exists (p, q).
        split; [done|]. apply intersect_genes_elem. exists x.
        split; by apply NoDup_first_at.
      * intros [[p q] [[= -> ->] Hin]].
        apply intersect_genes_elem in Hin as (x & [Hp _] & [Hq _]).
        exists x, p, q. repeat split; try done; by apply NoDup_last_at.
Qed.

End intersect_features_more.

Lemma intersect_features_pairs_last_occurrences_witness :
  (1, 0) ∈ intersect_features ["A"; "A"; "B"]%string ["A"; "B"]%string.
Proof.
  apply (intersect_features_pairs_last_occurrences
           ["A"; "A"; "B"]%string ["A"; "B"]%string 1 0).
  - unfold INT_MAX. simpl. lia.
  - unfold INT_MAX. simpl. lia.
  - exists "A"%string, 1%nat, 0%nat. split; [|split; [|done]].
    + split; [done|]. intros [|[|[|i']]] Hlt; [lia..| |]; done.
    + split; [done|]. intros [|[|i']] Hlt; [lia| |]; done.
Defined.

Lemma intersect_features_iteration_order_witness :
  merge_sort pair_le [(1, 0); (0, 1)]
  = intersect_features ["A"; "B"]%string ["B"; "A"]%string
  ∧ merge_sort pair_le [(0, 1); (1, 0)]
    = intersect_features ["A"; "B"]%string ["B"; "A"]%string.
Proof.
  split; apply intersect_features_iteration_order; vm_compute;
    first [reflexivity | apply perm_swap].
Defined.

Lemma intersect_features_agrees_with_genes_witness :
  intersect_features ["B"; "A"; "C"]%string ["A"; "D"; "B"]%string
  = (λ p, (Z.of_nat p.1, Z.of_nat p.2))
    <$> Genes.intersect_genes ["B"; "A"; "C"]%string ["A"; "D"; "B"]%string.
Proof.
  apply intersect_features_agrees_with_genes.
  - repeat (constructor; [by intros Hin; repeat (apply elem_of_cons in Hin as [Hin|Hin]; [done|]); inversion Hin|]).
    constructor.
  - repeat (constructor; [by intros Hin; repeat (apply elem_of_cons in Hin as [Hin|Hin]; [done|]); inversion Hin|]).
    constructor.
  - unfold INT_MAX. simpl. lia.
  - unfold INT_MAX. simpl. lia.
Defined.

(** * Further properties of the marker reindexer *)

(** ** [unzip] *)

Lemma unzip_prefix (intersection : Intersection) n :
  (n ≤ length intersection)%nat →
  foldl (unzip_step intersection)
    (replicate (length intersection) 0, replicate (length intersection) 0)
    (seq 0 n)
  = ((fst <$> take n intersection) ++ replicate (length intersection - n) 0,
     (snd <$> take n intersection) ++ replicate (length intersection - n) 0).
Proof.
  induction n as [|n IH]; intros Hn.
  - cbn. by rewrite take_0, Nat.sub_0_r.
  - rewrite seq_S, foldl_app, IH by lia. cbn [foldl Nat.add].
    destruct (lookup_lt_is_Some_2 intersection n) as [p Hp]; [lia|].
    unfold unzip_step. rewrite Hp. cbn [fst snd].
    rewrite (take_S_r _ _ _ Hp), !fmap_app. cbn [fmap list_fmap].
    replace (length intersection - n)%nat
      with (S (length intersection - S n)) by lia.
    cbn [replicate].
    assert (Hlen : ∀ f : Z * Z → Z, length (f <$> take n intersection) = n).
    { intros f. rewrite length_fmap, length_take. lia. }
    rewrite !insert_app_r_alt by (rewrite Hlen; lia).
    rewrite !Hlen, Nat.sub_diag. cbn. by rewrite <- !(assoc_L (++)).
Qed.

Lemma unzip_spec (intersection : Intersection) :
  unzip intersection = (fst <$> intersection, snd <$> intersection).
Proof.
  unfold unzip. rewrite unzip_prefix by done.
  by rewrite take_ge, Nat.sub_diag, !app_nil_r.
Qed.

(** X8. [unzip] returns the test rows and the reference rows of the pairs,
    in order: both vectors are as long as the intersection, and pairing
    their slots again gives the intersection back. *)
Theorem unzip_zip (intersection : Intersection) :
  length (unzip intersection).1 = length intersection
  ∧ length (unzip intersection).2 = length intersection
  ∧ zip (unzip intersection).1 (unzip intersection).2 = intersection.
Proof.
  rewrite unzip_spec. cbn. rewrite !length_fmap. split; [done|]. split; [done|].
  induction intersection as [|[a b] l IH]; [done|]. cbn. by rewrite IH.
Qed.

(** X9. After [subset_markers], looking up the new marker indices of an
    off-diagonal entry in the reference rows that [unzip] returns for the
    compacted intersection gives back the genes that the entry kept, in
    order; no new index is negative. *)
Theorem subset_markers_then_unzip intersection markers top :
  0 ≤ top ≤ INT_MAX →
  Z.of_nat (length intersection) ≤ INT_MAX + 1 →
  ∃ intersection' markers',
    subset_markers intersection markers top = Ok (intersection', markers')
    ∧ ∀ i j current,
        i ≠ j → entry markers i j = Some current →
        ∃ current',
          entry markers' i j = Some current'
          ∧ Forall (λ m, 0 ≤ m) current'
          ∧ (λ m, (unzip intersection').2 !! Z.to_nat m) <$> current'
            = Some <$> take (Z.to_nat top)
                         (filter (λ g, g ∈ snd <$> intersection) current).
Proof.
  intros Htop Hfits. eexists _, _.
  split; [apply subset_markers_total, reserve_small, Htop|].
  intros i j current Hne Hij. eexists.
  rewrite map_markers_twice_entry, Hij. cbn. rewrite decide_False by done.
  split; [done|]. rewrite <- filtered_top_small by done.
  assert (Hentry : current ∈ markers_entries 0 markers)
    by (apply markers_entries_entry; eauto).
  unfold renumber. split.
  - apply Forall_fmap, Forall_forall. intros g Hg. cbn.
    by destruct (new_index_position intersection markers top current g
                   Hfits Hentry Hg) as [[? _] _].
  - rewrite <- list_fmap_compose. apply list_fmap_ext. intros k g Hk. cbn.
    assert (Hg : g ∈ filtered_top (available_of intersection) top current)
      by (by eapply list_elem_of_lookup_2).
    destruct (new_index_position intersection markers top current g
                Hfits Hentry Hg) as [_ Hlook].
    rewrite unzip_spec. cbn [snd]. by rewrite list_lookup_fmap.
Qed.

Lemma subset_markers_then_unzip_witness :
  ∃ intersection' markers' current',
    subset_markers [(3, 9); (0, 5); (4, 1); (1, 7)] [[[]; [7; 5; 2]]; [[5; 8]; []]] 2
    = Ok (intersection', markers')
    ∧ entry markers' 0 1 = Some current'
    ∧ (λ m, (unzip intersection').2 !! Z.to_nat m) <$> current'
      = [Some 7; Some 5].
Proof.
  destruct (subset_markers_then_unzip
              [(3, 9); (0, 5); (4, 1); (1, 7)] [[[]; [7; 5; 2]]; [[5; 8]; []]] 2
              ltac:(unfold INT_MAX; lia) ltac:(unfold INT_MAX; simpl; lia))
    as (intersection' & markers' & Hrun & Hentry).
  destruct (Hentry 0%nat 1%nat [7; 5; 2] ltac:(lia) eq_refl)
    as (current' & Hcur & _ & Hlook).
  exists intersection', markers', current'.
  split; [exact Hrun|]. split; [exact Hcur|exact Hlook].
Defined.

(** ** The layout of the marker table *)

Lemma map_row_length g i j row : length (map_row g i j row) = length row.
Proof.
  revert j. induction row as [|c rest IH]; intros j; [done|].
  cbn. by rewrite IH.
Qed.

Lemma map_markers_length g i markers :
  length (map_markers g i markers) = length markers.
Proof.
  revert i. induction markers as [|row rows IH]; intros i; [done|].
  cbn. by rewrite IH.
Qed.

Lemma map_row_ext g h i j row :
  (∀ c, c ∈ row_entries i j row → g c = h c) →
  map_row g i j row = map_row h i j row.
Proof.
  revert j. induction row as [|c rest IH]; intros j Hgh; [done|].
  cbn [map_row row_entries] in *. f_equal.
  - case_decide; [done|]. apply Hgh. apply elem_of_app. left. left.
  - apply IH. intros c' Hc'. apply Hgh. apply elem_of_app. by right.
Qed.

Lemma map_markers_ext g h i markers :
  (∀ c, c ∈ markers_entries i markers → g c = h c) →
  map_markers g i markers = map_markers h i markers.
Proof.
  revert i. induction markers as [|row rows IH]; intros i Hgh; [done|].
  cbn [map_markers markers_entries] in *. f_equal.
  - apply map_row_ext. intros c Hc. apply Hgh. apply elem_of_app. by left.
  - apply IH. intros c Hc. apply Hgh. apply elem_of_app. by right.
Qed.

Lemma map_row_id i j row : map_row (λ c, c) i j row = row.
Proof.
  revert j. induction row as [|c rest IH]; intros j; [done|].
  cbn. rewrite IH. by case_decide.
Qed.

Lemma map_markers_id i markers : map_markers (λ c, c) i markers = markers.
Proof.
  revert i. induction markers as [|row rows IH]; intros i; [done|].
  cbn. by rewrite IH, map_row_id.
Qed.

Lemma map_row_compose f g i j row :
  map_row g i j (map_row f i j row) = map_row (λ c, g (f c)) i j row.
Proof.
  revert j. induction row as [|c rest IH]; intros j; [done|].
  cbn. rewrite IH. by case_decide.
Qed.

Lemma map_markers_compose f g i markers :
  map_markers g i (map_markers f i markers)
  = map_markers (λ c, g (f c)) i markers.
Proof.
  revert i. induction markers as [|row rows IH]; intros i; [done|].
  cbn. by rewrite IH, map_row_compose.
Qed.

(** The rows keep their lengths. *)
Lemma map_markers_row_length g markers i :
  length <$> map_markers g 0 markers !! i = length <$> markers !! i.
Proof.
  rewrite map_markers_lookup. destruct (markers !! i); [|done].
  cbn. by rewrite map_row_length.
Qed.

Lemma filtered_top_length available top current :
  (length (filtered_top available top current) ≤ length current)%nat
  ∧ Z.of_nat (length (filtered_top available top current)) ≤ to_size_t top.
Proof.
  unfold filtered_top. rewrite length_take.
  pose proof (length_filter (λ g, g ∈ available) current).
  pose proof (to_size_t_nonneg top). lia.
Qed.

Lemma truncate_length top current :
  (length (truncate top current) ≤ length current)%nat
  ∧ Z.of_nat (length (truncate top current)) ≤ to_size_t top.
Proof.
  unfold truncate. rewrite length_take.
  pose proof (to_size_t_nonneg top). lia.
Qed.

(** X10. For [top >= 0] both overloads of [subset_markers] keep the layout
    of the marker table: the number of rows and the length of every row are
    unchanged, and every off-diagonal list comes out no longer than it was
    and no longer than [top]. The intersection never grows. *)
Theorem subset_markers_shape intersection markers top :
  0 ≤ top ≤ INT_MAX →
  (∃ intersection' markers',
     subset_markers intersection markers top = Ok (intersection', markers')
     ∧ (length intersection' ≤ length intersection)%nat
     ∧ length markers' = length markers
     ∧ (∀ i, length <$> markers' !! i = length <$> markers !! i)
     ∧ ∀ i j current, i ≠ j → entry markers i j = Some current →
         ∃ current', entry markers' i j = Some current'
                     ∧ (length current' ≤ length current)%nat
                     ∧ Z.of_nat (length current') ≤ top)
  ∧ (∃ subset markers',
       subset_markers_all markers top = Ok (subset, markers')
       ∧ length markers' = length markers
       ∧ (∀ i, length <$> markers' !! i = length <$> markers !! i)
       ∧ ∀ i j current, i ≠ j → entry markers i j = Some current →
           ∃ current', entry markers' i j = Some current'
                       ∧ (length current' ≤ length current)%nat
                       ∧ Z.of_nat (length current') ≤ top).
Proof.
  intros Htop. split.
  - eexists _, _. split; [apply subset_markers_total, reserve_small, Htop|].
    split; [apply length_filter|].
    rewrite map_markers_compose. split; [apply map_markers_length|].
    split; [intros i; apply map_markers_row_length|].
    intros i j current Hne Hij. eexists.
    rewrite map_markers_entry, Hij. cbn. rewrite decide_False by done.
    split; [done|]. unfold renumber. rewrite length_fmap.
    destruct (filtered_top_length (available_of intersection) top current)
      as [Hle Htopmost].
    by rewrite to_size_t_small in Htopmost.
  - eexists _, _. split; [apply subset_markers_all_spec|].
    rewrite map_markers_compose. split; [apply map_markers_length|].
    split; [intros i; apply map_markers_row_length|].
    intros i j current Hne Hij. eexists.
    rewrite map_markers_entry, Hij. cbn. rewrite decide_False by done.
    split; [done|]. unfold renumber. rewrite length_fmap.
    destruct (truncate_length top current) as [Hle Htopmost].
    by rewrite to_size_t_small in Htopmost.
Qed.

Lemma subset_markers_shape_witness :
  ∃ intersection' markers',
    subset_markers [(0, 5); (1, 7)] [[[5]; [5; 7; 9]]; [[7; 3]; [77]]] 2
    = Ok (intersection', markers')
    ∧ length markers' = 2%nat.
Proof.
  destruct (proj1 (subset_markers_shape
                     [(0, 5); (1, 7)] [[[5]; [5; 7; 9]]; [[7; 3]; [77]]] 2
                     ltac:(unfold INT_MAX; lia)))
    as (intersection' & markers' & Hrun & _ & Hlen & _).
  exists intersection', markers'. split; [exact Hrun|exact Hlen].
Defined.

(** ** Edge cases of [subset_markers] *)

Section visit_edge.
Context {St : Type}.
Variable body : list Z → St → result (list Z * St).

(** A loop nest that meets no off-diagonal entry changes nothing. *)
Lemma visit_row_no_entries i j row s :
  row_entries i j row = [] → visit_row body i j row s = Ok (row, s).
Proof.
  revert j. induction row as [|c rest IH]; intros j Hnone; [done|].
  cbn [visit_row row_entries] in *. case_decide; [|done].
  by rewrite IH.
Qed.

Lemma visit_markers_no_entries i markers s :
  markers_entries i markers = [] → visit_markers body i markers s = Ok (markers, s).
Proof.
  revert i. induction markers as [|row rows IH]; intros i Hnone; [done|].
  cbn [visit_markers markers_entries] in *.
  apply app_eq_nil in Hnone as [Hrow Hrows].
  rewrite visit_row_no_entries by done. cbn. by rewrite IH.
Qed.

(** A body that always throws makes the loop nest throw as soon as there
    is an off-diagonal entry. *)
Hypothesis body_throws : ∀ c s, body c s = LengthError.

Lemma visit_row_throws i j row s :
  row_entries i j row ≠ [] → visit_row body i j row s = LengthError.
Proof.
  revert j. induction row as [|c rest IH]; intros j Hsome; [done|].
  cbn [visit_row row_entries] in *. case_decide.
  - by rewrite IH.
  - by rewrite body_throws.
Qed.

Lemma visit_markers_throws i markers s :
  markers_entries i markers ≠ [] → visit_markers body i markers s = LengthError.
Proof.
  revert i. induction markers as [|row rows IH]; intros i Hsome; [done|].
  cbn [visit_markers markers_entries] in *.
  destruct (row_entries i 0 row) as [|c l] eqn:Hrow.
  - rewrite visit_row_no_entries by done. cbn. by rewrite IH.
  - rewrite visit_row_throws; [done|]. by rewrite Hrow.
Qed.

End visit_edge.

Lemma no_off_diagonal_entries markers :
  (∀ i j, i ≠ j → entry markers i j = None) → markers_entries 0 markers = [].
Proof.
  intros Hnone. destruct (markers_entries 0 markers) as [|c l] eqn:Heq; [done|].
  assert (Hc : c ∈ markers_entries 0 markers) by (rewrite Heq; left).
  apply markers_entries_entry in Hc as (i & j & Hne & Hij).
  by rewrite Hnone in Hij.
Qed.

Lemma filter_nothing {A} (l : list A) : filter (λ _, False) l = [].
Proof.
  induction l as [|x l IH]; [done|].
  rewrite filter_cons_False; [exact IH|]. by intros [].
Qed.

(** X11. When the marker table has no off-diagonal entry (at most one
    label), both overloads return for every [top], also a negative one: the
    markers are left as they are and nothing is retained, so the
    intersection comes back empty and the subset is empty. *)
Theorem subset_markers_no_off_diagonal intersection markers top :
  (∀ i j, i ≠ j → entry markers i j = None) →
  subset_markers intersection markers top = Ok ([], markers)
  ∧ subset_markers_all markers top = Ok ([], markers).
Proof.
  intros Hnone%no_off_diagonal_entries. split.
  - unfold subset_markers, filter_markers.
    rewrite visit_markers_no_entries by done. cbn.
    rewrite compact_intersection_spec. cbn zeta.
    rewrite (list_filter_iff _ (λ _, False)) by set_solver.
    rewrite filter_nothing. cbn.
    by rewrite visit_markers_no_entries.
  - unfold subset_markers_all.
    rewrite visit_markers_no_entries by done. cbn.
    rewrite elements_empty. cbn.
    by rewrite visit_markers_no_entries.
Qed.

Lemma subset_markers_no_off_diagonal_witness :
  subset_markers [(0, 4); (1, 5)] [[[4; 5]]] (-3) = Ok ([], [[[4; 5]]])
  ∧ subset_markers_all [[[4; 5]]] (-3) = Ok ([], [[[4; 5]]]).
Proof.
  apply subset_markers_no_off_diagonal.
  intros [|i] [|j] Hne; [done|done| |]; by destruct i.
Defined.

(** X12. With a negative [top], the overload with an intersection throws
    [std::length_error] as soon as the marker table has an off-diagonal
    entry. *)
Theorem subset_markers_negative_top_throws intersection markers top i j current :
  - INT_MAX - 1 ≤ top < 0 →
  i ≠ j → entry markers i j = Some current →
  subset_markers intersection markers top = LengthError.
Proof.
  intros Htop Hne Hij. unfold subset_markers, filter_markers.
  rewrite visit_markers_throws; [done| |].
  - intros c s. unfold retain_top. by rewrite reserve_negative.
  - intros Hnil.
    assert (Hc : current ∈ markers_entries 0 markers)
      by (apply markers_entries_entry; eauto).
    rewrite Hnil in Hc. by inversion Hc.
Qed.

Lemma subset_markers_negative_top_throws_witness :
  subset_markers [(0, 5)] [[[]; [5]]; [[5]; []]] (-1) = LengthError.
Proof.
  apply (subset_markers_negative_top_throws
           [(0, 5)] [[[]; [5]]; [[5]; []]] (-1) 0 1 [5]).
  - unfold INT_MAX. lia.
  - lia.
  - reflexivity.
Defined.

(** X13. With a negative [top] the overload for identical feature spaces
    does not truncate at all: the cast to [size_t] exceeds the length of
    any vector, so every off-diagonal list keeps its length and all of its
    genes are in the returned subset. *)
Theorem subset_markers_all_negative_top markers top :
  - INT_MAX - 1 ≤ top < 0 →
  (∀ i j current, entry markers i j = Some current →
                  Z.of_nat (length current) ≤ vector_max_size) →
  ∃ subset markers',
    subset_markers_all markers top = Ok (subset, markers')
    ∧ ∀ i j current, i ≠ j → entry markers i j = Some current →
        ∃ current', entry markers' i j = Some current'
                    ∧ length current' = length current
                    ∧ ∀ g, g ∈ current → g ∈ subset.
Proof.
  intros Htop Hsize. eexists _, _. split; [apply subset_markers_all_spec|].
  intros i j current Hne Hij. eexists.
  rewrite map_markers_twice_entry, Hij. cbn. rewrite decide_False by done.
  split; [done|].
  assert (Hkeep : truncate top current = current).
  { unfold truncate, to_size_t. apply take_ge.
    specialize (Hsize i j current Hij).
    replace (top mod 2 ^ 64) with (top + 2 ^ 64)
      by (apply Z.mod_unique with (q := -1); unfold INT_MAX in *; lia).
    unfold vector_max_size, INT_MAX in *. lia. }
  unfold renumber. rewrite length_fmap, Hkeep. split; [done|].
  intros g Hg. apply sorted_subset_elem, gathered_elem. right.
  exists current. split; [apply markers_entries_entry; eauto|].
  by rewrite Hkeep.
Qed.

Lemma subset_markers_all_negative_top_witness :
  ∃ subset markers' current',
    subset_markers_all [[[1]; [5; 7; 9]]; [[7; 3]; [77]]] (-1)
    = Ok (subset, markers')
    ∧ entry markers' 0 1 = Some current'
    ∧ length current' = 3%nat.
Proof.
  destruct (subset_markers_all_negative_top
              [[[1]; [5; 7; 9]]; [[7; 3]; [77]]] (-1)
              ltac:(unfold INT_MAX; lia)) as (subset & markers' & Hrun & Hentry).
  - intros [|[|i]] [|[|j]] current [= <-];
      unfold vector_max_size; simpl; lia.
  - destruct (Hentry 0%nat 1%nat [5; 7; 9] ltac:(lia) eq_refl)
      as (current' & Hcur & Hlen & _).
    exists subset, markers', current'.
    split; [exact Hrun|]. split; [exact Hcur|exact Hlen].
Defined.

(** ** The new indices are dense *)

Lemma NoDup_fmap_filter {A B} (f : A → B) (P : A → Prop)
    `{!∀ x, Decision (P x)} (l : list A) :
  NoDup (f <$> l) → NoDup (f <$> filter P l).
Proof.
  induction l as [|x l IH]; [done|]. cbn [fmap list_fmap].
  intros [Hx Hl]%NoDup_cons. destruct (decide (P x)).
  - rewrite filter_cons_True by done. cbn. apply NoDup_cons. split; [|auto].
    intros [y [Hy [_ Hin]%list_elem_of_filter]]%list_elem_of_fmap.
    apply Hx. apply list_elem_of_fmap. eauto.
  - rewrite filter_cons_False by done. auto.
Qed.

(** Indexing a list without repetition maps each element to its position. *)
Lemma index_subset_NoDup (keys : list Z) c g :
  NoDup keys → Z.of_nat (length keys) ≤ INT_MAX + 1 →
  keys !! c = Some g → index_subset 0 keys ∅ !! g = Some (Z.of_nat c).
Proof.
  intros Hnd Hfits Hc. apply index_subset_lookup. exists c.
  split; [by apply NoDup_last_at|].
  apply lookup_lt_Some in Hc. rewrite to_int_small; [done|lia].
Qed.

Lemma z_to_nat_lookup {A} (l : list A) (m : Z) :
  0 ≤ m < Z.of_nat (length l) → ∃ x, l !! Z.to_nat m = Some x.
Proof. intros Hm. apply lookup_lt_is_Some_2. lia. Qed.

(** X14. When no reference row occurs twice in the intersection (as in the
    output of [intersect_genes] and [intersect_features]), the new marker
    indices are exactly the positions of the compacted intersection: an
    integer is a position [0..k-1] if and only if it occurs in some
    off-diagonal marker list of the result. *)
Theorem subset_markers_indices_cover intersection markers top :
  0 ≤ top ≤ INT_MAX →
  Z.of_nat (length intersection) ≤ INT_MAX + 1 →
  NoDup (snd <$> intersection) →
  ∃ intersection' markers',
    subset_markers intersection markers top = Ok (intersection', markers')
    ∧ ∀ m, 0 ≤ m < Z.of_nat (length intersection')
           ↔ ∃ i j current',
               i ≠ j ∧ entry markers' i j = Some current' ∧ m ∈ current'.
Proof.
  intros Htop Hfits Hnd. eexists _, _.
  split; [apply subset_markers_total, reserve_small, Htop|].
  set (keep := filtered_top (available_of intersection) top).
  set (retained := filter _ intersection).
  set (new_index := index_subset 0 (snd <$> retained) ∅).
  assert (Hlen : (length retained ≤ length intersection)%nat)
    by apply length_filter.
  intros m. split.
  - intros Hm. destruct (z_to_nat_lookup retained m Hm) as [p Hp].
    assert (Hin : p ∈ retained) by (by eapply list_elem_of_lookup_2).
    apply list_elem_of_filter in Hin as [Hkept _].
    apply gathered_elem in Hkept as [Hkept|(current & Hc & Hg)];
      [by inversion Hkept|].
    apply markers_entries_entry in Hc as (i & j & Hne & Hij).
    exists i, j, (renumber new_index (keep current)).
    split; [done|]. split.
    + rewrite map_markers_twice_entry, Hij. cbn. by rewrite decide_False.
    + unfold renumber. apply list_elem_of_fmap. exists p.2. split; [|done].
      unfold new_index.
      rewrite (index_subset_NoDup (snd <$> retained) (Z.to_nat m) p.2).
      * cbn. lia.
      * by apply NoDup_fmap_filter.
      * rewrite length_fmap. lia.
      * by rewrite list_lookup_fmap, Hp.
  - intros (i & j & current' & Hne & Hij & Hm).
    rewrite map_markers_twice_entry in Hij.
    destruct (entry markers i j) as [current|] eqn:Hcur; [|done].
    cbn in Hij. rewrite decide_False in Hij by done. inversion Hij; subst.
    apply list_elem_of_fmap in Hm as (g & -> & Hg).
    apply (new_index_position intersection markers top current g);
      [done| |done].
    apply markers_entries_entry. eauto.
Qed.

Lemma subset_markers_indices_cover_witness :
  ∃ intersection' markers',
    subset_markers [(3, 9); (0, 5); (4, 1); (1, 7)] [[[]; [7; 5; 2]]; [[5; 8]; []]] 2
    = Ok (intersection', markers')
    ∧ ∀ m, 0 ≤ m < Z.of_nat (length intersection')
           ↔ ∃ i j current',
               i ≠ j ∧ entry markers' i j = Some current' ∧ m ∈ current'.
Proof.
  apply subset_markers_indices_cover.
  - unfold INT_MAX. lia.
  - unfold INT_MAX. simpl. lia.
  - cbn. repeat (constructor; [by intros Hin; repeat (apply elem_of_cons in Hin as [Hin|Hin]; [done|]); inversion Hin|]).
    constructor.
Defined.

Lemma sorted_le_NoDup_lt (l : list Z) :
  StronglySorted Z.le l → NoDup l → StronglySorted Z.lt l.
Proof.
  induction 1 as [|x l Hs IH Hall]; intros Hnd; [constructor|].
  apply NoDup_cons in Hnd as [Hx Hnd]. constructor; [by apply IH|].
  apply Forall_forall. intros y Hy.
  pose proof (proj1 (Forall_forall _ _) Hall y Hy).
  assert (x ≠ y) by (by intros ->). lia.
Qed.

(** The indices that the overload for identical feature spaces writes are
    exactly the positions of the subset it returns. *)
Lemma subset_markers_all_cover markers top m :
  let subset := merge_sort Z.le (elements (gathered (truncate top) markers)) in
  Z.of_nat (length subset) ≤ INT_MAX + 1 →
  0 ≤ m < Z.of_nat (length subset)
  ↔ ∃ current, current ∈ markers_entries 0 markers
       ∧ m ∈ renumber (index_subset 0 subset ∅) (truncate top current).
Proof.
  cbn zeta. intros Hfits. split.
  - intros Hm. destruct (z_to_nat_lookup _ m Hm) as [g Hg].
    assert (Hin : g ∈ gathered (truncate top) markers).
    { apply sorted_subset_elem. by eapply list_elem_of_lookup_2. }
    apply gathered_elem in Hin as [Hin|(current & Hc & Hgc)];
      [by inversion Hin|].
    exists current. split; [done|]. unfold renumber.
    apply list_elem_of_fmap. exists g. split; [|done].
    rewrite (index_subset_NoDup _ (Z.to_nat m) g);
      [cbn; lia|apply sorted_subset_NoDup|done..].
  - intros (current & Hc & Hm).
    apply list_elem_of_fmap in Hm as (g & -> & Hg).
    by apply (subset_index_position markers top current g).
Qed.

(** X15. The subset that the overload for identical feature spaces returns
    is strictly increasing, and the new marker indices are exactly its
    positions: an integer is a position of the subset if and only if it
    occurs in some off-diagonal marker list of the result. This holds for
    every [top]; the positions are stored as [int], hence the bound on the
    size of the subset. *)
Theorem subset_markers_all_indices_cover markers top :
  ∃ subset markers',
    subset_markers_all markers top = Ok (subset, markers')
    ∧ StronglySorted Z.lt subset
    ∧ (Z.of_nat (length subset) ≤ INT_MAX + 1 →
       ∀ m, 0 ≤ m < Z.of_nat (length subset)
            ↔ ∃ i j current',
                i ≠ j ∧ entry markers' i j = Some current' ∧ m ∈ current').
Proof.
  eexists _, _. split; [apply subset_markers_all_spec|].
  split; [apply sorted_le_NoDup_lt;
          [apply sorted_subset_sorted|apply sorted_subset_NoDup]|].
  intros Hfits m. rewrite (subset_markers_all_cover markers top m Hfits).
  setoid_rewrite markers_entries_entry. split.
  - intros (current & (i & j & Hne & Hij) & Hm).
    exists i, j, (renumber (index_subset 0
                    (merge_sort Z.le (elements (gathered (truncate top) markers)))
                    ∅) (truncate top current)).
    split; [done|]. split; [|done].
    rewrite map_markers_twice_entry, Hij. cbn. by rewrite decide_False.
  - intros (i & j & current' & Hne & Hij & Hm).
    rewrite map_markers_twice_entry in Hij.
    destruct (entry markers i j) as [current|] eqn:Hcur; [|done].
    cbn in Hij. rewrite decide_False in Hij by done. inversion Hij; subst.
    exists current. split; [|done]. eauto.
Qed.

Lemma subset_markers_all_indices_cover_witness :
  ∃ subset markers',
    subset_markers_all [[[1]; [5; 7; 9]]; [[7; 3]; [77]]] 2
    = Ok (subset, markers')
    ∧ (0 ≤ 2 < Z.of_nat (length subset)
       ↔ ∃ i j current',
           i ≠ j ∧ entry markers' i j = Some current' ∧ 2 ∈ current').
Proof.
  destruct (subset_markers_all_indices_cover
              [[[1]; [5; 7; 9]]; [[7; 3]; [77]]] 2)
    as (subset & markers' & Hrun & _ & Hcover).
  exists subset, markers'. split; [exact Hrun|].
  apply Hcover. rewrite subset_markers_all_spec in Hrun.
  injection Hrun as <- _. vm_compute. discriminate.
Defined.

(** ** Reindexing twice *)

Lemma fmap_id_on {A} (f : A → A) (l : list A) :
  (∀ x, x ∈ l → f x = x) → f <$> l = l.
Proof.
  induction l as [|x l IH]; intros Hf; [done|]. cbn.
  rewrite Hf by left. f_equal. apply IH. intros y Hy. apply Hf. by right.
Qed.

Lemma seqZ_sorted m n : StronglySorted Z.le (seqZ m n).
Proof.
  unfold seqZ. apply StronglySorted_fmap with (R1 := lt); [|apply seq_sorted].
  intros x y Hxy. lia.
Qed.

(** Indexing [0, 1, ..., k-1] gives the identity mapping. *)
Lemma index_subset_seqZ k m :
  k ≤ INT_MAX + 1 → 0 ≤ m < k →
  index_subset 0 (seqZ 0 k) ∅ !! m = Some m.
Proof.
  intros Hk Hm.
  rewrite (index_subset_NoDup (seqZ 0 k) (Z.to_nat m) m).
  - f_equal. lia.
  - apply NoDup_seqZ.
  - rewrite length_seqZ. lia.
  - rewrite lookup_seqZ_lt by lia. f_equal. lia.
Qed.

(** X16. Reindexing is idempotent: applying the overload for identical
    feature spaces to the markers it returned, with the same [top], leaves
    them as they are and returns the subset [0, 1, ..., k-1], where [k] is
    the size of the first subset (at most [INT_MAX + 1], since positions are
    stored as [int]). *)
Theorem subset_markers_all_idempotent markers top :
  ∃ subset markers',
    subset_markers_all markers top = Ok (subset, markers')
    ∧ (Z.of_nat (length subset) ≤ INT_MAX + 1 →
       subset_markers_all markers' top
       = Ok (seqZ 0 (Z.of_nat (length subset)), markers')).
Proof.
  eexists _, _. split; [apply subset_markers_all_spec|].
  set (subset := merge_sort Z.le (elements (gathered (truncate top) markers))).
  set (index := index_subset 0 subset ∅).
  intros Hfits. rewrite subset_markers_all_spec, !map_markers_compose.
  set (again := λ c, renumber index (truncate top c)).
  assert (Hentries : ∀ c', c' ∈ markers_entries 0 (map_markers again 0 markers) →
            truncate top c' = c'
            ∧ ∀ m, m ∈ c' → 0 ≤ m < Z.of_nat (length subset)).
  { intros c' (c & Hc & ->)%map_markers_entries. split.
    - unfold truncate at 1. apply take_ge. unfold again, renumber.
      rewrite length_fmap. pose proof (truncate_length top c). lia.
    - intros m Hm. apply (subset_markers_all_cover markers top m Hfits). eauto. }
  assert (Hgathered : ∀ m, m ∈ gathered (truncate top) (map_markers again 0 markers)
                           ↔ 0 ≤ m < Z.of_nat (length subset)).
  { intros m. unfold gathered. rewrite gathered_elem. split.
    - intros [Hm|(c' & Hc' & Hm)]; [by inversion Hm|].
      destruct (Hentries c' Hc') as [Hsame Hrange]. rewrite Hsame in Hm. auto.
    - intros Hm. right.
      apply (subset_markers_all_cover markers top m Hfits)
        in Hm as (c & Hc & Hm).
      assert (Hc' : again c ∈ markers_entries 0 (map_markers again 0 markers))
        by (apply map_markers_entries; eauto).
      exists (again c). split; [done|].
      by rewrite (proj1 (Hentries _ Hc')). }
  assert (Hsubset : merge_sort Z.le
                      (elements (gathered (truncate top)
                                   (map_markers again 0 markers)))
                    = seqZ 0 (Z.of_nat (length subset))).
  { apply (StronglySorted_unique Z.le).
    - apply StronglySorted_merge_sort; apply _.
    - apply seqZ_sorted.
    - apply NoDup_Permutation.
      + rewrite merge_sort_Permutation. apply NoDup_elements.
      + apply NoDup_seqZ.
      + intros m. rewrite merge_sort_Permutation, elem_of_elements, Hgathered.
        rewrite elem_of_seqZ. lia. }
  rewrite Hsubset. do 2 f_equal.
  apply map_markers_ext. intros c Hc.
  assert (Hc' : again c ∈ markers_entries 0 (map_markers again 0 markers))
    by (apply map_markers_entries; eauto).
  destruct (Hentries _ Hc') as [Hsame Hrange].
  change (renumber index (truncate top c)) with (again c). rewrite Hsame.
  apply fmap_id_on. intros m Hm.
  by rewrite index_subset_seqZ by auto.
Qed.

Lemma subset_markers_all_idempotent_witness :
  ∃ subset markers',
    subset_markers_all [[[1]; [5; 7; 9]]; [[7; 3]; [77]]] 2
    = Ok (subset, markers')
    ∧ subset_markers_all markers' 2
      = Ok (seqZ 0 (Z.of_nat (length subset)), markers').
Proof.
  destruct (subset_markers_all_idempotent
              [[[1]; [5; 7; 9]]; [[7; 3]; [77]]] 2)
    as (subset & markers' & Hrun & Hagain).
  exists subset, markers'. split; [exact Hrun|].
  apply Hagain. rewrite subset_markers_all_spec in Hrun.
  injection Hrun as <- _. vm_compute. discriminate.
Defined.

(** * Further properties of the integrated classification *)

Lemma insert_table_lookup {A} (f : nat → A) (ks : list nat) (d : list A) i :
  foldl (λ d k, <[k := f k]> d) d ks !! i
  = if decide (i ∈ ks ∧ (i < length d)%nat) then Some (f i) else d !! i.
Proof. exact (foldl_insert_lookup (Float_ := unit) 0%nat (λ _ _, tt) f ks d i). Qed.

Lemma foldl_insert_length {A} (f : nat → A) (ks : list nat) (d : list A) :
  length (foldl (λ d k, <[k := f k]> d) d ks) = length d.
Proof.
  revert d. induction ks as [|k ks IH]; intros d; [done|].
  cbn. rewrite IH. apply length_insert.
Qed.

(** Writing [f k] at every index of a list replaces it by the table of
    [f]. *)
Lemma foldl_insert_all {A} (f : nat → A) (d : list A) :
  foldl (λ d k, <[k := f k]> d) d (seq 0 (length d)) = f <$> seq 0 (length d).
Proof.
  apply list_eq. intros i. rewrite insert_table_lookup, list_lookup_fmap.
  destruct (decide (i < length d)%nat) as [Hlt|Hge].
  - rewrite decide_True by (split; [apply elem_of_seq; lia|done]).
    by rewrite lookup_seq_lt.
  - rewrite decide_False by tauto.
    rewrite lookup_ge_None_2 by lia. by rewrite lookup_seq_ge by lia.
Qed.

Lemma insert_table_replicate {A} (f : nat → A) n x :
  foldl (λ d k, <[k := f k]> d) (replicate n x) (seq 0 n) = f <$> seq 0 n.
Proof.
  pose proof (foldl_insert_all f (replicate n x)) as Hall.
  by rewrite length_replicate in Hall.
Qed.

Lemma foldl_snoc_fmap {A B} (f : A → B) (acc : list B) (l : list A) :
  foldl (λ acc x, acc ++ [f x]) acc l = acc ++ (f <$> l).
Proof.
  revert acc. induction l as [|x l IH]; intros acc; cbn.
  - by rewrite app_nil_r.
  - rewrite IH. by rewrite <- (assoc_L (++)).
Qed.

Section classify_integrated_more.
Context {Float_ : Type} `{FloatOps Float_}.
Variable nref : nat.
Variable compute_score : nat → nat → Float_.

#[local] Abbreviation run i := (running_of nref compute_score i).
#[local] Abbreviation one_cell := (classify_cell nref compute_score).

Lemma store_scores_length i rs (sc : list (option (list Float_))) :
  length (foldl (λ sc r, store_score sc r i (compute_score r i)) sc rs)
  = length sc.
Proof.
  revert sc. induction rs as [|r rs IH]; intros sc; [done|].
  cbn [foldl]. rewrite IH. unfold store_score.
  destruct (sc !! r) as [[column|]|]; [|done..]. apply length_insert.
Qed.

(** The score buffers after a sequence of cells: the column of a reference
    [r < nref] has received the score of every cell of the sequence, the
    other entries of [scores] are as before. *)
Lemma classify_cells_scores cells buffers r :
  scores (foldl one_cell buffers cells) !! r
  = (if decide (r < nref)%nat
     then fmap (M := option)
            (λ column, foldl (λ c i, <[i := compute_score r i]> c) column cells)
     else id) <$> scores buffers !! r.
Proof.
  revert buffers. induction cells as [|i cells IH]; intros buffers.
  - cbn. destruct (scores buffers !! r) as [[column|]|]; by case_decide.
  - cbn [foldl]. rewrite IH, classify_cell_eq. cbn [scores].
    rewrite store_scores_lookup.
    destruct (scores buffers !! r) as [[column|]|]; cbn; [| |done].
    + destruct (decide (r < nref)%nat).
      * rewrite decide_True by (apply elem_of_seq; lia). done.
      * rewrite decide_False by (rewrite elem_of_seq; lia). done.
    + by repeat case_decide.
Qed.

Lemma classify_cells_scores_length cells buffers :
  length (scores (foldl one_cell buffers cells)) = length (scores buffers).
Proof.
  revert buffers. induction cells as [|i cells IH]; intros buffers; [done|].
  cbn [foldl]. rewrite IH, classify_cell_eq. cbn [scores].
  apply store_scores_length.
Qed.

(** The recorded reference is the initial [0] or a reference that was
    scanned. *)
Lemma running_best_ref_seen i rs st :
  let st' := foldl (λ st r, update st r (compute_score r i)) st rs in
  best_ref st' = best_ref st ∨ best_ref st' ∈ rs.
Proof.
  revert st. induction rs as [|r rs IH]; intros st; cbn zeta; [by left|].
  cbn [foldl].
  destruct (IH (update st r (compute_score r i))) as [Heq|Hin].
  - cbn zeta in Heq. rewrite Heq. unfold update.
    destruct (f_gt _ (best_score st)); cbn; [right; left|].
    destruct (f_gt _ (next_best st)); by left.
  - right. by right.
Qed.

(** Scores that never exceed the initial value leave the locals as they
    were initialised. *)
Lemma running_never_above i rs :
  (∀ r, r ∈ rs → f_gt (compute_score r i) (f_of_int (-1000)) = false) →
  foldl (λ st r, update st r (compute_score r i)) init_running rs
  = init_running.
Proof.
  induction rs as [|r rs IH]; intros Hle; [done|]. cbn [foldl].
  assert (Hstep : update init_running r (compute_score r i) = init_running).
  { unfold update. cbn. by rewrite (Hle r) by left. }
  rewrite Hstep. apply IH. intros r' Hr'. apply Hle. by right.
Qed.

(** X17. A worker that processes the cells [start, start + len) does not
    resize a buffer, does not turn a null pointer into a non-null one or back,
    and leaves every slot outside its range as it was, in [best], in [delta]
    and in every column of [scores]. *)
Theorem classify_range_frame start len buffers :
  let out := classify_range nref compute_score start len buffers in
  length <$> best out = length <$> best buffers
  ∧ length <$> delta out = length <$> delta buffers
  ∧ length (scores out) = length (scores buffers)
  ∧ (∀ r, fmap (M := option) length <$> scores out !! r
          = fmap (M := option) length <$> scores buffers !! r)
  ∧ ∀ i, ¬ (start ≤ i < start + len)%nat →
      (λ b, b !! i) <$> best out = (λ b, b !! i) <$> best buffers
      ∧ (λ d, d !! i) <$> delta out = (λ d, d !! i) <$> delta buffers
      ∧ ∀ r, fmap (M := option) (λ c, c !! i) <$> scores out !! r
             = fmap (M := option) (λ c, c !! i) <$> scores buffers !! r.
Proof.
  cbn zeta. split; [|split; [|split; [|split]]].
  - rewrite classify_range_best. destruct (best buffers); [|done].
    cbn. by rewrite foldl_insert_length.
  - rewrite classify_range_delta. destruct (delta buffers); [|done].
    cbn. by rewrite foldl_insert_length.
  - apply classify_cells_scores_length.
  - intros r. unfold classify_range. rewrite classify_cells_scores.
    destruct (scores buffers !! r) as [[column|]|]; cbn; [| |done].
    + case_decide; cbn; [|done]. by rewrite foldl_insert_length.
    + by case_decide.
  - intros i Hi. split; [|split].
    + rewrite classify_range_best. destruct (best buffers); [|done]. cbn.
      rewrite insert_table_lookup. rewrite decide_False; [done|].
      intros [Hin _]. apply elem_of_seq in Hin. lia.
    + rewrite classify_range_delta. destruct (delta buffers); [|done]. cbn.
      rewrite insert_table_lookup. rewrite decide_False; [done|].
      intros [Hin _]. apply elem_of_seq in Hin. lia.
    + intros r. unfold classify_range. rewrite classify_cells_scores.
      destruct (scores buffers !! r) as [[column|]|]; cbn; [| |done].
      * case_decide; cbn; [|done]. rewrite insert_table_lookup.
        rewrite decide_False; [done|].
        intros [Hin _]. apply elem_of_seq in Hin. lia.
      * by case_decide.
Qed.

(** X18. Every non-null column of [scores] receives the score of its
    reference for every cell of the worker's range, whether or not that
    reference is the best one. *)
Theorem classify_range_records_scores start len buffers column r i :
  scores buffers !! r = Some (Some column) → (r < nref)%nat →
  (start ≤ i < start + len)%nat → (i < length column)%nat →
  ∃ column',
    scores (classify_range nref compute_score start len buffers) !! r
    = Some (Some column')
    ∧ column' !! i = Some (compute_score r i).
Proof.
  intros Hsc Hr Hi Hlen. unfold classify_range.
  rewrite classify_cells_scores, Hsc. cbn. rewrite decide_True by done.
  eexists. split; [done|].
  rewrite (insert_table_lookup (λ i, compute_score r i)).
  rewrite decide_True; [done|]. split; [|done]. apply elem_of_seq. lia.
Qed.


(** X20. When no score of a cell exceeds the initial [-1000] under [>]
    (for instance when every score is NaN), the cell is assigned reference
    [0], and with more than one reference its delta is [-1000 - (-1000)]. *)
Theorem classify_range_no_score_above_initial start len buffers b d i :
  (∀ r, (r < nref)%nat →
        f_gt (compute_score r i) (f_of_int (-1000)) = false) →
  best buffers = Some b → delta buffers = Some d →
  (start ≤ i < start + len)%nat → (i < length b)%nat → (i < length d)%nat →
  ∃ b' d',
    best (classify_range nref compute_score start len buffers) = Some b'
    ∧ delta (classify_range nref compute_score start len buffers) = Some d'
    ∧ b' !! i = Some 0%nat
    ∧ ((1 < nref)%nat →
       d' !! i = Some (f_sub (f_of_int (-1000)) (f_of_int (-1000)))).
Proof.
  intros Hle Hb Hd Hi Hlb Hld.
  assert (Hrun : run i = init_running).
  { apply running_never_above. intros r Hr%elem_of_seq. apply Hle. lia. }
  destruct (classify_range_best_at nref compute_score start len buffers b i
              Hb Hi Hlb) as (b' & Hb' & Hbi).
  destruct (classify_range_delta_at nref compute_score start len buffers d i
              Hd Hi Hld) as (d' & Hd' & Hdi).
  exists b', d'. split; [done|]. split; [done|].
  rewrite Hrun in Hbi, Hdi. split; [done|]. intros Hn.
  unfold delta_of in Hdi. by rewrite decide_True in Hdi.
Qed.

(** X21. With at least one reference, the reference written into [best]
    is always a valid reference index, whatever the scores are. *)
Theorem classify_range_best_in_range start len buffers b i :
  (0 < nref)%nat →
  best buffers = Some b → (start ≤ i < start + len)%nat → (i < length b)%nat →
  ∃ b' r,
    best (classify_range nref compute_score start len buffers) = Some b'
    ∧ b' !! i = Some r ∧ (r < nref)%nat.
Proof.
  intros Hn Hb Hi Hlen.
  destruct (classify_range_best_at nref compute_score start len buffers b i
              Hb Hi Hlen) as (b' & Hb' & Hbi).
  exists b', (best_ref (run i)). split; [done|]. split; [done|].
  destruct (running_best_ref_seen i (seq 0 nref) init_running) as [Heq|Hin].
  - cbn zeta in Heq. unfold running_of. rewrite Heq. cbn. lia.
  - apply elem_of_seq in Hin. unfold running_of. lia.
Qed.

Lemma new_results_scores ncells nrefs :
  Results.scores (new_results (Float_ := Float_) ncells nrefs)
  = replicate nrefs (replicate ncells (f_of_int 0)).
Proof.
  cbn. rewrite foldl_snoc_fmap. cbn [app]. generalize 0%nat.
  induction nrefs as [|n IH]; intros k; [done|]. cbn. by rewrite IH.
Qed.

Lemma buffers_of_scores (results : Results.ClassifyIntegratedResults Float_) :
  scores (buffers_of results) = Some <$> Results.scores results.
Proof. cbn. by rewrite foldl_snoc_fmap. Qed.

(** X22. The overload that allocates its results returns fully written
    vectors: [best] and [delta] have one slot per cell, [scores] has one
    vector per reference with one slot per cell, and each slot holds the
    value computed for its cell; nothing is left at its initial zero. *)
Theorem classify_integrated_results_table ncol :
  classify_integrated_results nref compute_score ncol
  = {| Results.best :=
         (λ i, best_ref (running_of nref compute_score i)) <$> seq 0 ncol;
       Results.scores :=
         (λ r, (λ i, compute_score r i) <$> seq 0 ncol) <$> seq 0 nref;
       Results.delta :=
         (λ i, delta_of nref (running_of nref compute_score i)) <$> seq 0 ncol |}.
Proof.
  unfold classify_integrated_results, written_through, classify_integrated.
  f_equal.
  - rewrite classify_range_best. cbn.
    apply (insert_table_replicate (λ i, best_ref (run i))).
  - apply list_eq. intros r. rewrite lookup_zip_with.
    unfold classify_range. rewrite classify_cells_scores, buffers_of_scores.
    rewrite new_results_scores, !list_lookup_fmap.
    destruct (decide (r < nref)%nat) as [Hr|Hr].
    + rewrite lookup_replicate_2, lookup_seq_lt by done. cbn.
      by rewrite (insert_table_replicate (λ i, compute_score r i)).
    + rewrite lookup_seq_ge by lia.
      by rewrite (proj1 (lookup_replicate_None _ _ _)) by lia.
  - rewrite classify_range_delta. cbn.
    apply (insert_table_replicate (λ i, delta_of nref (run i))).
Qed.

End classify_integrated_more.

(** The slot of the second cell is untouched by a worker that processes
    the first cell only. *)
Lemma classify_range_frame_witness :
  (λ b, b !! 1%nat) <$> best (classify_range 3 example_scores 0 1 example_buffers)
  = Some (Some 7%nat).
Proof.
  pose proof (classify_range_frame 3 example_scores 0 1 example_buffers)
    as Hframe.
  cbn zeta in Hframe. destruct Hframe as (_ & _ & _ & _ & Hframe).
  destruct (Hframe 1%nat ltac:(lia)) as [Hbest _]. exact Hbest.
Defined.

(** The third reference loses on the first cell, and its score is recorded
    all the same. *)
Lemma classify_range_records_scores_witness :
  ∃ column',
    scores (classify_range 3 example_scores 0 2 example_buffers) !! 2%nat
    = Some (Some column')
    ∧ column' !! 0%nat = Some (example_scores 2 0).
Proof.
  apply (classify_range_records_scores 3 example_scores 0 2 example_buffers
           [0; 0]%float 2 0).
  - reflexivity.
  - lia.
  - lia.
  - simpl. lia.
Defined.


(** Every score is NaN. *)
Lemma classify_range_no_score_above_initial_witness :
  ∃ b' d',
    best (classify_range 3 (λ _ _, f_nan) 0 2 example_buffers) = Some b'
    ∧ delta (classify_range 3 (λ _ _, f_nan) 0 2 example_buffers) = Some d'
    ∧ b' !! 1%nat = Some 0%nat
    ∧ ((1 < 3)%nat →
       d' !! 1%nat = Some (f_sub (f_of_int (-1000)) (f_of_int (-1000)))).
Proof.
  apply (classify_range_no_score_above_initial 3 (λ _ _, f_nan) 0 2
           example_buffers [7; 7]%nat [0; 0]%float 1).
  - intros r _. reflexivity.
  - reflexivity.
  - reflexivity.
  - lia.
  - simpl. lia.
  - simpl. lia.
Defined.

Lemma classify_range_best_in_range_witness :
  ∃ b' r,
    best (classify_range 3 example_scores 0 2 example_buffers) = Some b'
    ∧ b' !! 1%nat = Some r ∧ (r < 3)%nat.
Proof.
  apply (classify_range_best_in_range 3 example_scores 0 2 example_buffers
           [7; 7]%nat 1).
  - lia.
  - reflexivity.
  - lia.
  - simpl. lia.
Defined.
